(** * Huffman file compression ([util.h]): model and verified properties

    A shallow embedding of [src/util.h]: the frequency map, the encoding
    tree built with a priority queue, the encoding map, [encode], [decode],
    [compress], [decompress] and [freeTree].

    Conventions of the model.
    - [int] is modelled by [Z]. The sum of two counts in
      [buildEncodingTree] is taken with the wrap-around of an [int] of 32
      bits, see [int_add]; the increments of [buildFrequencyMap] and of
      [encode] are taken in [Z]. No count leaves the range of [int] on an
      input of fewer than [INT_MAX] characters, see [counts_fit_int].
    - [char] is modelled by [ascii]; the promotion [char -> int] is
      [char_to_int] (plain [char] is signed on the reference platform) and
      the narrowing [int -> char] is [int_to_char].
    - [std::string] is modelled by [list ascii].
    - [HuffmanNode*] is modelled by the inductive [HuffmanNode], whose
      constructor [nullptr] is the null pointer.
    - Code that can throw, or whose behaviour is undefined, returns in the
      [result] monad.
    - [_freeTree] deletes nodes: it is modelled on a store of nodes by
      address, which [tree_at] relates to the inductive [HuffmanNode]. *)

From Stdlib Require Import ZArith Ascii List Lia.
From stdpp Require Import base option list gmap fin_maps strings.

Local Open Scope Z_scope.

(** * The program *)

(** ** Results of code that may fail *)

Inductive failure :=
| NullDereference   (* a null [HuffmanNode*] is dereferenced *)
| EmptyQueueTop     (* [top()] on an empty [priority_queue] *)
| OutOfRange        (* [std::out_of_range], from [at()] or [substr()] *)
| FuelExhausted.    (* the loop bound of the model was reached *)

Inductive result (A : Type) :=
| Ok (a : A)
| Fail (e : failure).
Arguments Ok {A} a.
Arguments Fail {A} e.

#[global] Instance result_ret : MRet result := λ A a, Ok a.
#[global] Instance result_bind : MBind result := λ A B f r,
  match r with Ok a => f a | Fail e => Fail e end.

(** ** Reserved symbols and characters *)

(** Modelled from the spec: [PSEUDO_EOF] and [NOT_A_CHAR] are declared in
    the bit-stream header, which is not part of the sources; the sentinel
    is a reserved value outside the byte range 0..255 and the internal
    marker a second reserved value, distinct from every real symbol and
    from the sentinel. *)
Definition PSEUDO_EOF : Z := 256.
Definition NOT_A_CHAR : Z := 257.

(** [char] to [int]: sign extension of the eight bits. *)
Definition char_to_int (c : ascii) : Z :=
  let n := Z.of_N (N_of_ascii c) in
  if n <? 128 then n else n - 256.

(** [int] to [char]: the low eight bits. *)
Definition int_to_char (z : Z) : ascii :=
  ascii_of_N (Z.to_N (z mod 256)).

(** ** Huffman nodes *)

(** [struct HuffmanNode { int character; int count; HuffmanNode* zero;
    HuffmanNode* one; }], seen through a pointer. *)
Inductive HuffmanNode :=
| nullptr
| new_HuffmanNode (character count : Z) (zero one : HuffmanNode).

#[global] Instance HuffmanNode_eq_dec : EqDecision HuffmanNode.
Proof. solve_decision. Defined.

(** [node->count]. *)
Definition node_count (node : HuffmanNode) : result Z :=
  match node with
  | nullptr => Fail NullDereference
  | new_HuffmanNode _ count _ _ => Ok count
  end.

(** The value of [count] used by the comparator; the queue only ever holds
    nodes that were allocated, so the value at [nullptr] is immaterial. *)
Definition count_of (node : HuffmanNode) : Z :=
  match node with
  | nullptr => 0
  | new_HuffmanNode _ count _ _ => count
  end.

(** [struct compare]: [lhs->count > rhs->count]. *)
Definition compare (lhs rhs : HuffmanNode) : bool :=
  count_of lhs >? count_of rhs.

(** ** The priority queue

    [std::priority_queue<HuffmanNode*, vector<HuffmanNode*>, compare>]
    belongs to the C++ standard library. Its contract is that [top()]
    returns an element that [compare] puts before no other element, and
    that [push] and [pop] add and remove one element; which of several
    elements of equal count comes first is left to the implementation.
    The development is carried out for every implementation of this
    contract. *)
Class PriorityQueue := {
  pq : Type;
  pq_new : pq;
  pq_push : HuffmanNode → pq → pq;
  pq_top : pq → option HuffmanNode;
  pq_pop : pq → pq;
  pq_size : pq → nat;
  (* the elements held, in no particular order *)
  pq_contents : pq → list HuffmanNode;
  pq_contents_new : pq_contents pq_new = [];
  pq_contents_push x q : pq_contents (pq_push x q) ≡ₚ x :: pq_contents q;
  pq_size_contents q : pq_size q = length (pq_contents q);
  pq_top_None q : pq_top q = None ↔ pq_contents q = [];
  pq_top_pop q x :
    pq_top q = Some x → pq_contents q ≡ₚ x :: pq_contents (pq_pop q);
  pq_top_first q x y :
    pq_top q = Some x → y ∈ pq_contents q → compare x y = false
}.

(** [pq.top()]; undefined on an empty queue. *)
Definition top `{PriorityQueue} (q : pq) : result HuffmanNode :=
  match pq_top q with
  | Some node => Ok node
  | None => Fail EmptyQueueTop
  end.

(** ** The frequency map

    Modelled from the spec: the class [hashmap] ([hashmapF]) is not part of
    the sources; it is a mapping from symbol to count, enumerable, with
    lookup by key. [put] binds a key to a value and replaces the binding of
    a key already present, which is what [buildFrequencyMap] relies on to
    raise a count. [keys] enumerates the keys, each once, in an order that
    the contents of the map determine; the properties of the encoding tree
    are proved without a word on that order, and [decompress] relies on it
    only to enumerate the map it reads back as [compress] enumerated the
    map it wrote. *)
Abbreviation hashmapF := (gmap Z Z).

Definition containsKey (map : hashmapF) (key : Z) : bool :=
  bool_decide (is_Some (map !! key)).

(** [map.get(key)]; every call in [util.h] is made on a key that is present. *)
Definition get (map : hashmapF) (key : Z) : Z := default 0 (map !! key).

Definition put (map : hashmapF) (key value : Z) : hashmapF :=
  <[key := value]> map.

Definition keys (map : hashmapF) : list Z := (map_to_list map).*1.

(** Files: a name either opens, with the characters it holds, or does not. *)
Definition filesystem : Type := list ascii → option (list ascii).

(** What [while (inPut.get(cur))] reads from [ifstream inPut(filename)]:
    every character of the file, and nothing when the stream failed to open. *)
Definition stream_chars (stream : option (list ascii)) : list ascii :=
  default [] stream.

(** The body shared by both loops of [buildFrequencyMap]. *)
Definition count_char (map : hashmapF) (cur : ascii) : hashmapF :=
  let key := char_to_int cur in
  if containsKey map key then
    let curVal := get map key in
    put map key (curVal + 1)
  else put map key 1.

Definition buildFrequencyMap (fs : filesystem) (filename : list ascii)
    (isFile : bool) (map : hashmapF) : hashmapF :=
  let inPut := fs filename in
  let map :=
    if isFile then foldl count_char map (stream_chars inPut)
    else foldl count_char map filename in
  put map PSEUDO_EOF 1.

(** The sequence of symbols [buildFrequencyMap] scans. *)
Definition scanned (fs : filesystem) (filename : list ascii) (isFile : bool)
    : list ascii :=
  if isFile then stream_chars (fs filename) else filename.

(** The sum of all counts of a frequency map. *)
Definition total_count (map : hashmapF) : Z :=
  map_fold (λ _ count acc, count + acc) 0 map.

(** Number of occurrences of [c] in [S]. *)
Definition occurrences (c : ascii) (S : list ascii) : Z :=
  Z.of_nat (length (filter (λ x, x = c) S)).

(** ** The encoding tree *)

(** The sum of two [int]s. A sum outside the range of [int] is undefined
    behaviour in C++; on the reference platform it wraps around, on 32 bits
    in two's complement. *)
Definition int_add (a b : Z) : Z := (a + b + 2 ^ 31) mod 2 ^ 32 - 2 ^ 31.

Section EncodingTree.
Context `{PQ : PriorityQueue}.

(** The first loop of [buildEncodingTree]: one leaf per key. *)
Definition push_leaf (map : hashmapF) (q : pq) (key : Z) : pq :=
  let curNode := new_HuffmanNode key (get map key) nullptr nullptr in
  pq_push curNode q.

(** The second loop, [while (pq.size() > 1)]. Every iteration removes at
    least one element, so [fuel] equal to the size of the queue is enough. *)
Fixpoint merge_loop (fuel : nat) (q : pq) : result pq :=
  if decide (1 < pq_size q)%nat then
    match fuel with
    | O => Fail FuelExhausted
    | S fuel =>
        firstNode ← top q;
        let q := pq_pop q in
        next ← top q;
        if decide (next ≠ nullptr) then
          let secondNode := next in
          let q := pq_pop q in
          c1 ← node_count firstNode;
          c2 ← node_count secondNode;
          let sumNode :=
            new_HuffmanNode NOT_A_CHAR (int_add c1 c2) firstNode secondNode in
          merge_loop fuel (pq_push sumNode q)
        else merge_loop fuel q
    end
  else Ok q.

Definition buildEncodingTree (map : hashmapF) : result HuffmanNode :=
  let allChars := keys map in
  let q := foldl (push_leaf map) pq_new allChars in
  q ← merge_loop (pq_size q) q;
  top q.

End EncodingTree.

(** ** The encoding map *)

Abbreviation hashmapE := (gmap Z (list ascii)).

(** [unordered_map::emplace]: no effect when the key is already bound. *)
Definition emplace (key : Z) (str : list ascii) (encodingMap : hashmapE) : hashmapE :=
  match encodingMap !! key with
  | Some _ => encodingMap
  | None => <[key := str]> encodingMap
  end.

(** [unordered_map::at]: throws [std::out_of_range] when the key is absent. *)
Definition at_ (encodingMap : hashmapE) (key : Z) : result (list ascii) :=
  match encodingMap !! key with
  | Some str => Ok str
  | None => Fail OutOfRange
  end.

(** [str.substr(0, str.size()-1)] *)
Definition drop_last (str : list ascii) : list ascii :=
  take (length str - 1)%nat str.

Fixpoint _buildEncodingMap (node : HuffmanNode) (encodingMap : hashmapE)
    (str : list ascii) : result hashmapE :=
  match node with
  | nullptr => Fail NullDereference
  | new_HuffmanNode character _ zero one =>
      if decide (character ≠ NOT_A_CHAR) then
        Ok (emplace character str encodingMap)
      else
        let str := str ++ ["0"%char] in
        encodingMap ← _buildEncodingMap zero encodingMap str;
        let str := drop_last str in
        let str := str ++ ["1"%char] in
        _buildEncodingMap one encodingMap str
  end.

Definition buildEncodingMap (tree : HuffmanNode) : result hashmapE :=
  let encodingMap : hashmapE := ∅ in
  _buildEncodingMap tree encodingMap [].

(** ** Bit streams

    Modelled from the spec: [ofbitstream] and [ifbitstream] are declared in
    the bit-stream header, which is not part of the sources. The sink
    accepts single bits in order; the stored byte stream packs them most
    significant bit first and pads the last byte with zeros. The source
    yields the stored bits in order, padding included; like any C++ input
    stream it reports end of file only after a read has failed, and a
    failed [readBit] returns -1. The frequency header is stored in front of
    the bits and read back unchanged. *)
Record ofbitstream := {
  ob_name : list ascii;
  ob_header : hashmapF;
  ob_bits : list bool
}.

Definition open_ofbitstream (name : list ascii) : ofbitstream :=
  {| ob_name := name; ob_header := ∅; ob_bits := [] |}.

Definition writeBit (bit : bool) (output : ofbitstream) : ofbitstream :=
  {| ob_name := ob_name output; ob_header := ob_header output;
     ob_bits := ob_bits output ++ [bit] |}.

(** [output << map] *)
Definition write_header (map : hashmapF) (output : ofbitstream) : ofbitstream :=
  {| ob_name := ob_name output; ob_header := map; ob_bits := ob_bits output |}.

(** The bits of the stored bytes: the bits written, then the zero padding
    of the last byte. *)
Definition stored_bits (bits : list bool) : list bool :=
  bits ++ replicate ((8 - length bits `mod` 8) `mod` 8)%nat false.

Record ifbitstream := {
  ib_header : hashmapF;
  ib_bits : list bool;
  ib_eof : bool
}.

(** Compressed files, as [compress] left them. *)
Definition bitfiles : Type := list ascii → option ofbitstream.

Definition open_ifbitstream (file : option ofbitstream) : ifbitstream :=
  match file with
  | Some f => {| ib_header := ob_header f; ib_bits := stored_bits (ob_bits f);
                 ib_eof := false |}
  | None => {| ib_header := ∅; ib_bits := []; ib_eof := false |}
  end.

Definition readBit (input : ifbitstream) : Z * ifbitstream :=
  match ib_bits input with
  | [] => (-1, {| ib_header := ib_header input; ib_bits := []; ib_eof := true |})
  | bit :: bits =>
      (Z.b2z bit, {| ib_header := ib_header input; ib_bits := bits;
                     ib_eof := ib_eof input |})
  end.

(** ** Encoding *)

(** The loop [for (char &bit : encode)]. *)
Definition write_code (code : list ascii) (output : ofbitstream) (size : Z)
    : ofbitstream * Z :=
  foldl (λ '(output, size) bit,
    let output := if decide (bit = "0"%char) then writeBit false output else output in
    let output := if decide (bit = "1"%char) then writeBit true output else output in
    (output, size + 1)) (output, size) code.

(** The loop [while (input.get(cur))]. *)
Fixpoint encode_chars (chars : list ascii) (encodingMap : hashmapE)
    (output : ofbitstream) (size : Z) (buildString : list ascii)
    : result (ofbitstream * Z * list ascii) :=
  match chars with
  | [] => Ok (output, size, buildString)
  | cur :: chars =>
      encode ← at_ encodingMap (char_to_int cur);
      let '(output, size) := write_code encode output size in
      encode_chars chars encodingMap output size (buildString ++ encode)
  end.

(** [encode]; the result holds the returned string, the bit sink and
    [size], which the source passes by reference. *)
Definition encode (input : option (list ascii)) (encodingMap : hashmapE)
    (output : ofbitstream) (size : Z) (makeFile : bool)
    : result (list ascii * ofbitstream * Z) :=
  let buildString := [] in
  if makeFile then
    '(output, size, buildString) ←
      encode_chars (stream_chars input) encodingMap output size buildString;
    eof ← at_ encodingMap PSEUDO_EOF;
    let '(output, size) := write_code eof output size in
    Ok (buildString ++ eof, output, size)
  else Ok (buildString, output, size).

(** ** Decoding *)

(** [if (bit == 0) curNode = curNode->zero; else if (bit == 1) curNode =
    curNode->one;] *)
Definition follow (bit : Z) (curNode : HuffmanNode) : result HuffmanNode :=
  if decide (bit = 0) then
    match curNode with
    | nullptr => Fail NullDereference
    | new_HuffmanNode _ _ zero _ => Ok zero
    end
  else if decide (bit = 1) then
    match curNode with
    | nullptr => Fail NullDereference
    | new_HuffmanNode _ _ _ one => Ok one
    end
  else Ok curNode.

(** [decode]'s loop. The result holds [buildString] and the characters put
    to [output]. Every iteration but the last consumes a bit, so [fuel]
    two above the number of bits left is enough. *)
Fixpoint decode_loop (fuel : nat) (input : ifbitstream)
    (encodingTree curNode : HuffmanNode) (buildString output : list ascii)
    : result (list ascii * list ascii) :=
  if ib_eof input then Ok (buildString, output)
  else
    match fuel with
    | O => Fail FuelExhausted
    | S fuel =>
        match curNode with
        | nullptr => Fail NullDereference
        | new_HuffmanNode character _ _ _ =>
            if decide (character = PSEUDO_EOF) then Ok (buildString, output)
            else
              let '(buildString, output, curNode) :=
                if decide (character ≠ NOT_A_CHAR) then
                  (buildString ++ [int_to_char character],
                   output ++ [int_to_char character], encodingTree)
                else (buildString, output, curNode) in
              let '(bit, input) := readBit input in
              curNode ← follow bit curNode;
              decode_loop fuel input encodingTree curNode buildString output
        end
    end.

Definition decode (input : ifbitstream) (encodingTree : HuffmanNode)
    (output : list ascii) : result (list ascii * list ascii) :=
  let buildString := [] in
  let curNode := encodingTree in
  decode_loop (length (ib_bits input) + 2) input encodingTree curNode
    buildString output.

(** ** File names *)

(** [s.find(pat)], converted to [int]: the first position at which [pat]
    occurs, or -1. *)
Fixpoint find_from (s pat : list ascii) (i : Z) : Z :=
  if bool_decide (pat `prefix_of` s) then i
  else match s with
       | [] => -1
       | _ :: s' => find_from s' pat (i + 1)
       end.

Definition find (s pat : list ascii) : Z := find_from s pat 0.

(** [s.substr(pos, len)]; an [int] below zero becomes a [size_t] beyond
    the length of any string: as a position it makes [substr] throw, as a
    length it selects the rest of the string. *)
Definition substr (s : list ascii) (pos len : Z) : result (list ascii) :=
  if decide (pos < 0 ∨ Z.of_nat (length s) < pos) then Fail OutOfRange
  else
    let rest := drop (Z.to_nat pos) s in
    Ok (if decide (len < 0) then rest else take (Z.to_nat len) rest).

(** A string literal. *)
Definition lit (s : string) : list ascii := String.list_ascii_of_string s.

(** The name [decompress] gives to the file it writes. *)
Definition uncompressed_name (filename : list ascii) : result (list ascii) :=
  let pos := find filename (lit ".huf") in
  filename ← (if decide (0 ≤ pos) then substr filename 0 pos else Ok filename);
  let pos := find filename (lit ".") in
  ext ← substr filename pos (Z.of_nat (length filename) - pos);
  filename ← substr filename 0 pos;
  Ok (filename ++ lit "_unc" ++ ext).

(** ** Compression and decompression *)

Section Orchestration.
Context `{PQ : PriorityQueue}.

(** [compress]; the result holds the returned bit pattern and the
    compressed file written. *)
Definition compress (fs : filesystem) (filename : list ascii)
    : result (list ascii * ofbitstream) :=
  let isFile := bool_decide (is_Some (fs filename)) in
  let map := buildFrequencyMap fs filename isFile ∅ in
  root ← buildEncodingTree map;
  encodingMap ← buildEncodingMap root;
  let input := fs filename in
  let output := open_ofbitstream (filename ++ lit ".huf") in
  let output := write_header map output in
  let size := 0 in
  '(encodedMessage, output, size) ← encode input encodingMap output size true;
  Ok (encodedMessage, output).

(** [decompress]; the result holds the returned text, and the name and
    the contents of the file written. *)
Definition decompress (files : bitfiles) (filename : list ascii)
    : result (list ascii * (list ascii * list ascii)) :=
  let input := open_ifbitstream (files filename) in
  output_name ← uncompressed_name filename;
  let frequencyMap := ib_header input in
  root ← buildEncodingTree frequencyMap;
  '(decodedMessage, output) ← decode input root [];
  Ok (decodedMessage, (output_name, output)).

End Orchestration.

(** ** Freeing the tree

    [_freeTree] deletes nodes, so it is modelled on the free store: the
    nodes allocated, each at its address, with the addresses of its
    children. Address 0 is the null pointer. Reading, writing or deleting
    a node that is not allocated is undefined behaviour. [compress] and
    [decompress] call [_freeTree] on the tree they built once their result
    is computed; the call has no part in the result, and their models
    leave it out. *)

Record stored_node := {
  sn_character : Z;
  sn_count : Z;
  sn_zero : N;
  sn_one : N
}.

Abbreviation store := (gmap N stored_node).

Inductive store_failure :=
| DanglingPointer   (* a node that is not allocated is read, written or deleted *)
| RecursionBound.   (* the bound of the model on the depth of the recursion *)

Inductive outcome (A : Type) :=
| Done (a : A)
| Invalid (e : store_failure).
Arguments Done {A} a.
Arguments Invalid {A} e.

#[global] Instance outcome_ret : MRet outcome := λ A a, Done a.
#[global] Instance outcome_bind : MBind outcome := λ A B f r,
  match r with Done a => f a | Invalid e => Invalid e end.

(** [*root] *)
Definition read_node (root : N) (heap : store) : outcome stored_node :=
  match heap !! root with
  | Some node => Done node
  | None => Invalid DanglingPointer
  end.

(** [root->zero = value] *)
Definition write_zero (root value : N) (heap : store) : outcome store :=
  node ← read_node root heap;
  Done (<[root := {| sn_character := sn_character node; sn_count := sn_count node;
                     sn_zero := value; sn_one := sn_one node |}]> heap).

(** [root->one = value] *)
Definition write_one (root value : N) (heap : store) : outcome store :=
  node ← read_node root heap;
  Done (<[root := {| sn_character := sn_character node; sn_count := sn_count node;
                     sn_zero := sn_zero node; sn_one := value |}]> heap).

(** [delete root] *)
Definition delete_node (root : N) (heap : store) : outcome store :=
  _ ← read_node root heap;
  Done (delete root heap).

(** [_freeTree]; [fuel] bounds the depth of the recursion. *)
Fixpoint _freeTree (fuel : nat) (root : N) (heap : store) : outcome store :=
  if decide (root = 0%N) then Done heap
  else
    match fuel with
    | O => Invalid RecursionBound
    | S fuel =>
        node ← read_node root heap;
        heap ← _freeTree fuel (sn_zero node) heap;
        node ← read_node root heap;
        heap ← _freeTree fuel (sn_one node) heap;
        heap ← write_zero root 0%N heap;
        heap ← write_one root 0%N heap;
        delete_node root heap
    end.

(** [freeTree]. A recursion deeper than the number of nodes allocated
    meets a node a second time and does not end well. *)
Definition freeTree (node : N) (heap : store) : outcome store :=
  _freeTree (size heap) node heap.

(** * Notions of the specification *)

(** ** Frequencies *)

(** Occurrences of the key [k] among the characters of [S]. *)
Definition key_occurrences (k : Z) (S : list ascii) : Z :=
  Z.of_nat (length (filter (λ x, char_to_int x = k) S)).

(** ** Trees *)

(** A node without children. *)
Definition leaf (c k : Z) : HuffmanNode := new_HuffmanNode c k nullptr nullptr.

(** Every node of a tree. *)
Fixpoint nodes (t : HuffmanNode) : list HuffmanNode :=
  match t with
  | nullptr => []
  | new_HuffmanNode _ _ zero one => t :: nodes zero ++ nodes one
  end.

(** A leaf of the data model: a symbol that is not the internal marker,
    and no child. *)
Definition is_leaf (n : HuffmanNode) : Prop :=
  ∃ c k, n = new_HuffmanNode c k nullptr nullptr ∧ c ≠ NOT_A_CHAR.

(** An internal node of the data model: the internal marker, and both
    children. *)
Definition is_internal (n : HuffmanNode) : Prop :=
  ∃ k zero one,
    n = new_HuffmanNode NOT_A_CHAR k zero one ∧ zero ≠ nullptr ∧ one ≠ nullptr.

(** The invariant of the data model, for a whole tree. *)
Fixpoint well_formed (t : HuffmanNode) : Prop :=
  match t with
  | nullptr => False
  | new_HuffmanNode c _ zero one =>
      (c ≠ NOT_A_CHAR ∧ zero = nullptr ∧ one = nullptr)
      ∨ (c = NOT_A_CHAR ∧ well_formed zero ∧ well_formed one)
  end.

(** The symbols at the leaves, with their counts, from left to right. A
    leaf is a node without children. *)
Fixpoint leaves (t : HuffmanNode) : list (Z * Z) :=
  match t with
  | nullptr => []
  | new_HuffmanNode c k zero one =>
      match zero, one with
      | nullptr, nullptr => [(c, k)]
      | _, _ => leaves zero ++ leaves one
      end
  end.

(** The weighted path length: the sum, over the leaves, of count times
    depth, for a tree whose root lies at depth [d]. *)
Fixpoint wpl_from (d : nat) (t : HuffmanNode) : Z :=
  match t with
  | nullptr => 0
  | new_HuffmanNode _ k zero one =>
      match zero, one with
      | nullptr, nullptr => k * Z.of_nat d
      | _, _ => wpl_from (S d) zero + wpl_from (S d) one
      end
  end.

Definition weighted_path_length (t : HuffmanNode) : Z := wpl_from 0 t.

(** The count and the depth of every leaf. *)
Fixpoint leaf_depths (d : nat) (t : HuffmanNode) : list (Z * nat) :=
  match t with
  | nullptr => []
  | new_HuffmanNode _ k zero one =>
      match zero, one with
      | nullptr, nullptr => [(k, d)]
      | _, _ => leaf_depths (S d) zero ++ leaf_depths (S d) one
      end
  end.

(** The sum of the counts of the leaves. *)
Fixpoint leaf_sum (t : HuffmanNode) : Z :=
  match t with
  | nullptr => 0
  | new_HuffmanNode _ k zero one =>
      match zero, one with
      | nullptr, nullptr => k
      | _, _ => leaf_sum zero + leaf_sum one
      end
  end.

(** The greatest depth of a leaf. *)
Fixpoint height (t : HuffmanNode) : nat :=
  match t with
  | nullptr => 0
  | new_HuffmanNode _ _ zero one =>
      match zero, one with
      | nullptr, nullptr => 0
      | _, _ => S (height zero `max` height one)
      end
  end.

(** Every node has no child or two. *)
Fixpoint full (t : HuffmanNode) : Prop :=
  match t with
  | nullptr => False
  | new_HuffmanNode _ _ zero one =>
      (zero = nullptr ∧ one = nullptr) ∨ (full zero ∧ full one)
  end.

(** The trees [buildEncodingTree] makes as long as no sum of counts
    leaves the range of [int]: a node is a leaf, or it carries the internal
    marker, the sum of the counts of its two children, and two such
    trees. *)
Fixpoint built (t : HuffmanNode) : Prop :=
  match t with
  | nullptr => False
  | new_HuffmanNode c k zero one =>
      (zero = nullptr ∧ one = nullptr)
      ∨ (c = NOT_A_CHAR ∧ k = count_of zero + count_of one
         ∧ built zero ∧ built one)
  end.

(** The shape alone: a node is a leaf, or it carries the internal marker
    and two such trees, whatever its count. *)
Fixpoint shaped (t : HuffmanNode) : Prop :=
  match t with
  | nullptr => False
  | new_HuffmanNode c _ zero one =>
      (zero = nullptr ∧ one = nullptr)
      ∨ (c = NOT_A_CHAR ∧ shaped zero ∧ shaped one)
  end.

(** Removing the nodes that have a single child. *)
Fixpoint contract (t : HuffmanNode) : HuffmanNode :=
  match t with
  | nullptr => nullptr
  | new_HuffmanNode c k zero one =>
      match zero, one with
      | nullptr, nullptr => t
      | nullptr, _ => contract one
      | _, nullptr => contract zero
      | _, _ => new_HuffmanNode c k (contract zero) (contract one)
      end
  end.

(** The weighted path lengths of the trees of a forest, added up. *)
Definition forest_wpl (F : list HuffmanNode) : Z :=
  foldr (λ t acc, weighted_path_length t + acc) 0 F.

(** ** Abstract codes *)

(** An abstract code: one pair (weight, depth) per symbol. *)
Definition cost (P : list (Z * nat)) : Z :=
  foldr (λ '(w, d) acc, w * Z.of_nat d + acc) 0 P.

(** The Kraft sum of a list of depths, scaled by [2 ^ N]. *)
Definition ksum (N : nat) (ds : list nat) : nat :=
  foldr (λ d acc, 2 ^ (N - d) + acc)%nat 0%nat ds.

(** The depths are those of the leaves of a full binary tree of height at
    most [N] only if their Kraft sum is one. *)
Definition kraft (N : nat) (ds : list nat) : Prop :=
  Forall (λ d, d ≤ N)%nat ds ∧ ksum N ds = (2 ^ N)%nat.

(** The leaf [buildEncodingTree] makes for an entry of the frequency map. *)
Definition leaf_of (entry : Z * Z) : HuffmanNode := leaf entry.1 entry.2.

(** What every iteration of the second loop of [buildEncodingTree]
    preserves, whatever the counts: the trees of the queue are of the
    shape [shaped], and their leaves are the entries of the frequency
    map. *)
Definition shape_inv (map : hashmapF) (F : list HuffmanNode) : Prop :=
  Forall shaped F ∧ concat (leaves <$> F) ≡ₚ map_to_list map.

(** What every iteration preserves as long as no sum of counts leaves
    the range of [int]: the trees of the queue are of the shape [built],
    their leaves are the entries of the frequency map, and they can be
    completed into a tree no more expensive than any code for the map. *)
Definition forest_inv (map : hashmapF) (F : list HuffmanNode) : Prop :=
  Forall built F
  ∧ concat (leaves <$> F) ≡ₚ map_to_list map
  ∧ ∀ P0 N0, kraft N0 P0.*2 → P0.*1 ≡ₚ (map_to_list map).*2 →
      ∃ P N, kraft N P.*2 ∧ P.*1 ≡ₚ count_of <$> F
             ∧ forest_wpl F + cost P ≤ cost P0.

(** ** Codes and paths *)

(** The character that stands for a bit in a code. *)
Definition bit_char (bit : bool) : ascii := if bit then "1"%char else "0"%char.

(** A path of the tree, written as [_buildEncodingMap] writes it. *)
Definition code_string (path : list bool) : list ascii := bit_char <$> path.

(** The bits [write_code] writes for a code: one per character ['0'] or ['1']. *)
Definition code_bits (code : list ascii) : list bool :=
  omap (λ ch, if decide (ch = "0"%char) then Some false
              else if decide (ch = "1"%char) then Some true else None) code.

(** The symbols of a tree with the path that leads to each, from left to
    right; a node is taken for a leaf when it does not carry the internal
    marker, as [_buildEncodingMap] does. *)
Fixpoint paths (t : HuffmanNode) : list (Z * list bool) :=
  match t with
  | nullptr => []
  | new_HuffmanNode c _ zero one =>
      if decide (c ≠ NOT_A_CHAR) then [(c, [])]
      else (prod_map id (cons false) <$> paths zero)
           ++ (prod_map id (cons true) <$> paths one)
  end.

(** The table after the traversal has met the symbols of [l] in order. *)
Definition emplace_all (str : list ascii) (l : list (Z * list bool))
    (encodingMap : hashmapE) : hashmapE :=
  foldl (λ E entry, emplace entry.1 (str ++ code_string entry.2) E) encodingMap l.

(** ** Decoding *)

(** [node->zero] or [node->one]. *)
Definition child (bit : bool) (node : HuffmanNode) : HuffmanNode :=
  match node with
  | nullptr => nullptr
  | new_HuffmanNode _ _ zero one => if bit then one else zero
  end.

(** The decoder of the specification, as a walk of the tree from an
    internal node [cur]: one bit leads to a child; a leaf bound to the
    sentinel ends the walk, a leaf bound to a symbol yields the symbol and
    sends the walk back to the root. *)
Fixpoint walk (root cur : HuffmanNode) (bits : list bool) : list Z :=
  match bits with
  | [] => []
  | bit :: bits =>
      match child bit cur with
      | nullptr => []
      | new_HuffmanNode c _ _ _ as next =>
          if decide (c = PSEUDO_EOF) then []
          else if decide (c ≠ NOT_A_CHAR) then c :: walk root root bits
          else walk root next bits
      end
  end.

(** The symbols decoded from position [cur] on. *)
Definition symbols_from (root cur : HuffmanNode) (bits : list bool) : list Z :=
  match cur with
  | nullptr => []
  | new_HuffmanNode c _ _ _ =>
      if decide (c = PSEUDO_EOF) then []
      else if decide (c ≠ NOT_A_CHAR) then c :: walk root root bits
      else walk root cur bits
  end.

(** Whether the walk reaches the leaf bound to the sentinel. *)
Fixpoint reaches_sentinel (root cur : HuffmanNode) (bits : list bool) : bool :=
  match bits with
  | [] => false
  | bit :: bits =>
      match child bit cur with
      | nullptr => false
      | new_HuffmanNode c _ _ _ as next =>
          if decide (c = PSEUDO_EOF) then true
          else if decide (c ≠ NOT_A_CHAR) then reaches_sentinel root root bits
          else reaches_sentinel root next bits
      end
  end.

(** The root carries the internal marker: the tree has at least two
    symbols. *)
Definition is_internal_root (t : HuffmanNode) : Prop :=
  ∃ k zero one, t = new_HuffmanNode NOT_A_CHAR k zero one.

(** [buildString += c] for every symbol [c]. *)
Definition chars (symbols : list Z) : list ascii := int_to_char <$> symbols.

(** A bit source on which no read has failed yet. *)
Definition bit_source (header : hashmapF) (bits : list bool) : ifbitstream :=
  {| ib_header := header; ib_bits := bits; ib_eof := false |}.

(** ** Encoding *)

(** The sink after [bits] more bits were written. *)
Definition add_bits (bits : list bool) (output : ofbitstream) : ofbitstream :=
  {| ob_name := ob_name output; ob_header := ob_header output;
     ob_bits := ob_bits output ++ bits |}.

(** The codes of the characters of [S], in order. *)
Definition codes_of (encodingMap : hashmapE) (S : list ascii) : list (list ascii) :=
  (λ cur, default [] (encodingMap !! char_to_int cur)) <$> S.

(** ** The size of a code *)

(** The sum, over the entries of [l], of count times [g key]. *)
Definition weighted (g : Z → Z) (l : list (Z * Z)) : Z :=
  foldr (λ entry acc, entry.2 * g entry.1 + acc) 0 l.

(** The length of the code of [key] in a table. *)
Definition code_length (encodingMap : hashmapE) (key : Z) : Z :=
  Z.of_nat (length (default [] (encodingMap !! key))).

(** ** Trees in the free store *)

(** The tree [t] lies in the store at address [root], its nodes at the
    addresses [A], in the order of [nodes]. *)
Fixpoint tree_at (heap : store) (root : N) (t : HuffmanNode) (A : list N) : Prop :=
  match t with
  | nullptr => root = 0%N ∧ A = []
  | new_HuffmanNode c k zero one =>
      root ≠ 0%N
      ∧ ∃ pz po Az Ao,
          heap !! root = Some {| sn_character := c; sn_count := k;
                                 sn_zero := pz; sn_one := po |}
          ∧ tree_at heap pz zero Az ∧ tree_at heap po one Ao
          ∧ A = root :: Az ++ Ao
  end.

(** The store without the nodes at the addresses [A]. *)
Definition without (A : list N) (heap : store) : store :=
  filter (λ entry, entry.1 ∉ A) heap.

(** ** Inputs of the examples *)

(** The file system with the single file ["a.txt"], which holds ["aabbbcc"]. *)
Definition example_fs : filesystem :=
  λ name, if decide (name = lit "a.txt") then Some (lit "aabbbcc") else None.

(** The frequency model of ["aabbbcc"]. *)
Definition example_model : hashmapF :=
  {[ 97 := 2; 98 := 3; 99 := 2; PSEUDO_EOF := 1 ]}.

(** The tree of the model that holds ['a'] twice and the sentinel. *)
Definition example_tree : HuffmanNode :=
  new_HuffmanNode NOT_A_CHAR 3
    (new_HuffmanNode PSEUDO_EOF 1 nullptr nullptr)
    (new_HuffmanNode 97 2 nullptr nullptr).

(** Its code table. *)
Definition example_table : hashmapE :=
  {[ PSEUDO_EOF := ["0"%char]; 97 := ["1"%char] ]}.

(** [INT_MAX], for an [int] of 32 bits. *)
Definition INT_MAX : Z := 2147483647.

(** A model whose counts fit an [int] each and add up beyond [INT_MAX]. *)
Definition overflow_model : hashmapF :=
  {[ 97 := 1073741834; 98 := 1073741835; 99 := 1073741844; 100 := 1073741845 ]}.

(** A compressed file with the header of ["aabbbcc"] and bits of no
    particular meaning. *)
Definition example_huf : ofbitstream :=
  {| ob_name := lit "a.txt.huf"; ob_header := example_model;
     ob_bits := [true; false; true; true; false] |}.

(** [example_tree] in a store, with a node that does not belong to it. *)
Definition example_store : store :=
  {[ 1%N := {| sn_character := NOT_A_CHAR; sn_count := 3;
               sn_zero := 2%N; sn_one := 3%N |};
     2%N := {| sn_character := PSEUDO_EOF; sn_count := 1;
               sn_zero := 0%N; sn_one := 0%N |};
     3%N := {| sn_character := 97; sn_count := 2;
               sn_zero := 0%N; sn_one := 0%N |};
     4%N := {| sn_character := 98; sn_count := 5;
               sn_zero := 0%N; sn_one := 0%N |} ]}.

(** A node whose two children are the same leaf. *)
Definition shared_store : store :=
  {[ 1%N := {| sn_character := NOT_A_CHAR; sn_count := 2;
               sn_zero := 2%N; sn_one := 2%N |};
     2%N := {| sn_character := PSEUDO_EOF; sn_count := 1;
               sn_zero := 0%N; sn_one := 0%N |} ]}.

(** * Properties *)

(** ** An implementation of the priority queue

    A vector kept in ascending order of count; a new element goes behind
    the elements of equal count, or in front of them. It shows that the
    contract [PriorityQueue] can be met, in more than one way, and runs the
    examples. *)
Module SortedQueue.

(** Where a new element goes among the elements of equal count: behind
    them, or in front of them. *)
Inductive tie_break := Behind | InFront.

Definition goes_before (tie : tie_break) (x y : HuffmanNode) : bool :=
  match tie with
  | Behind => compare y x
  | InFront => negb (compare x y)
  end.

Fixpoint insert (tie : tie_break) (x : HuffmanNode) (q : list HuffmanNode)
    : list HuffmanNode :=
  match q with
  | [] => [x]
  | y :: q' => if goes_before tie x y then x :: q else y :: insert tie x q'
  end.

Fixpoint sorted (q : list HuffmanNode) : Prop :=
  match q with
  | [] => True
  | x :: q' => Forall (λ y, compare x y = false) q' ∧ sorted q'
  end.

Definition queue : Type := { q : list HuffmanNode | sorted q }.

Lemma insert_perm tie x q : insert tie x q ≡ₚ x :: q.
Proof.
  induction q as [|y q IH]; simpl; [done|].
  destruct (goes_before tie x y); [done|].
  rewrite IH. apply Permutation_swap.
Qed.

Lemma insert_sorted tie x q : sorted q → sorted (insert tie x q).
Proof.
  induction q as [|y q IH]; simpl; intros Hs.
  - split; [constructor | done].
  - destruct Hs as [Hy Hs].
    destruct (goes_before tie x y) eqn:Hc; simpl.
    + split; [|done].
      assert (compare x y = false) as Hxy.
      { destruct tie; unfold goes_before, compare in *; simpl in Hc; lia. }
      constructor; [done|].
      eapply Forall_impl; [exact Hy|]. simpl. unfold compare in *.
      intros z Hz. lia.
    + split; [|auto].
      rewrite insert_perm. constructor; [|done].
      destruct tie; unfold goes_before, compare in *; simpl in Hc; lia.
Qed.

Program Definition new : queue := [] ↾ _.
Next Obligation. exact I. Qed.

Program Definition push (tie : tie_break) (x : HuffmanNode) (q : queue)
    : queue :=
  insert tie x (`q) ↾ _.
Next Obligation. intros tie x [q Hq]. simpl. by apply insert_sorted. Qed.

Program Definition pop (q : queue) : queue := tail (`q) ↾ _.
Next Obligation. intros [[|x q] Hq]; simpl in *; tauto. Qed.

Definition first (q : queue) : option HuffmanNode := head (`q).

End SortedQueue.

#[refine] Definition sorted_queue_with (tie : SortedQueue.tie_break)
    : PriorityQueue := {|
  pq := SortedQueue.queue;
  pq_new := SortedQueue.new;
  pq_push := SortedQueue.push tie;
  pq_top := SortedQueue.first;
  pq_pop := SortedQueue.pop;
  pq_size q := length (`q);
  pq_contents q := `q
|}.
Proof.
  - done.
  - intros x [q Hq]. apply SortedQueue.insert_perm.
  - done.
  - intros [[|x q] Hq]; done.
  - intros [[|x q] Hq] y; simpl; [done|]. by intros [= ->].
  - intros [[|x q] Hq] x' y; simpl; [done|]. intros [= ->] Hin.
    destruct Hq as [Hx _]. apply elem_of_cons in Hin as [->|Hin].
    + unfold compare. lia.
    + by eapply Forall_forall in Hx.
Defined.

(** The implementation used in the examples. *)
Definition sorted_queue : PriorityQueue := sorted_queue_with SortedQueue.Behind.

(** ** Characters *)

Lemma int_to_char_to_int c : int_to_char (char_to_int c) = c.
Proof. by destruct c as [[] [] [] [] [] [] [] []]. Qed.

Lemma char_to_int_range c : -128 ≤ char_to_int c ≤ 127.
Proof. destruct c as [[] [] [] [] [] [] [] []]; vm_compute; split; discriminate. Qed.

Lemma char_to_int_inj c1 c2 : char_to_int c1 = char_to_int c2 → c1 = c2.
Proof.
  intros Heq. rewrite <-(int_to_char_to_int c1), <-(int_to_char_to_int c2).
  by rewrite Heq.
Qed.

Lemma char_not_PSEUDO_EOF c : char_to_int c ≠ PSEUDO_EOF.
Proof. pose proof (char_to_int_range c). unfold PSEUDO_EOF. lia. Qed.

Lemma char_not_NOT_A_CHAR c : char_to_int c ≠ NOT_A_CHAR.
Proof. pose proof (char_to_int_range c). unfold NOT_A_CHAR. lia. Qed.

(** ** The frequency map *)

Lemma count_char_insert map cur :
  count_char map cur =
  <[char_to_int cur := get map (char_to_int cur) + 1]> map.
Proof.
  unfold count_char, containsKey, put, get.
  case_bool_decide as Hin; [done|].
  apply eq_None_not_Some in Hin. by rewrite Hin.
Qed.

Lemma occurrences_cons c x S :
  occurrences c (x :: S) = (if decide (x = c) then 1 else 0) + occurrences c S.
Proof.
  unfold occurrences. rewrite filter_cons.
  destruct (decide (x = c)); simpl length; lia.
Qed.

Lemma occurrences_nonneg c S : 0 ≤ occurrences c S.
Proof. unfold occurrences. lia. Qed.

Lemma occurrences_pos c S : c ∈ S → 0 < occurrences c S.
Proof.
  intros Hin. unfold occurrences.
  assert (c ∈ filter (λ x, x = c) S) as Hf by (by apply list_elem_of_filter).
  destruct (filter (λ x, x = c) S); [by apply not_elem_of_nil in Hf|].
  simpl length. lia.
Qed.

Lemma occurrences_zero c S : c ∉ S → occurrences c S = 0.
Proof.
  intros Hin. unfold occurrences.
  destruct (filter (λ x, x = c) S) as [|y l] eqn:Hf; [done|].
  assert (y ∈ filter (λ x, x = c) S) as Hy by (rewrite Hf; left).
  apply list_elem_of_filter in Hy as [-> ?]. done.
Qed.

Lemma key_occurrences_char c S :
  key_occurrences (char_to_int c) S = occurrences c S.
Proof.
  unfold key_occurrences, occurrences. do 2 f_equal.
  apply list_filter_iff. intros x. split; [apply char_to_int_inj | by intros ->].
Qed.

Lemma get_count_char map cur k :
  get (count_char map cur) k =
  get map k + (if decide (char_to_int cur = k) then 1 else 0).
Proof.
  rewrite count_char_insert. unfold get at 1.
  destruct (decide (char_to_int cur = k)) as [->|Hne].
  - by rewrite lookup_insert_eq.
  - rewrite lookup_insert_ne by done. unfold get. lia.
Qed.

Lemma get_foldl_count_char S : ∀ map k,
  get (foldl count_char map S) k = get map k + key_occurrences k S.
Proof.
  induction S as [|x S IH]; intros map k; simpl foldl.
  { unfold key_occurrences. simpl. lia. }
  rewrite IH, get_count_char. unfold key_occurrences.
  rewrite filter_cons. destruct (decide (char_to_int x = k)); simpl length; lia.
Qed.

Lemma lookup_foldl_count_char_None S : ∀ map k,
  foldl count_char map S !! k = None ↔
  map !! k = None ∧ ∀ c, c ∈ S → char_to_int c ≠ k.
Proof.
  induction S as [|x S IH]; intros map k; simpl foldl.
  { split; [|tauto]. intros ?. split; [done|]. by intros c ?%not_elem_of_nil. }
  rewrite IH, count_char_insert, lookup_insert_None.
  split.
  - intros [[? ?] HS]. split; [done|].
    intros c [->|?]%elem_of_cons; auto.
  - intros [? HS]. split; [split; [done|]|].
    + apply HS. left.
    + intros c ?. apply HS. by right.
Qed.

(** The counts after scanning [S], starting from [map]. *)
Lemma lookup_foldl_count_char S map c :
  c ∈ S →
  foldl count_char map S !! char_to_int c =
  Some (get map (char_to_int c) + occurrences c S).
Proof.
  intros Hin.
  destruct (foldl count_char map S !! char_to_int c) as [v|] eqn:Hl.
  - pose proof (get_foldl_count_char S map (char_to_int c)) as Hg.
    unfold get at 1 in Hg. rewrite Hl in Hg. simpl in Hg.
    by rewrite Hg, key_occurrences_char.
  - apply lookup_foldl_count_char_None in Hl as [_ Hl]. by destruct (Hl c).
Qed.

Lemma lookup_foldl_count_char_other S map k :
  (∀ c, c ∈ S → char_to_int c ≠ k) →
  foldl count_char map S !! k = map !! k.
Proof.
  revert map. induction S as [|x S IH]; intros map HS; [done|].
  simpl foldl. rewrite IH by (intros c ?; apply HS; by right).
  rewrite count_char_insert, lookup_insert_ne; [done|]. apply HS. left.
Qed.

(** ** The sum of the counts *)

Lemma total_count_empty : total_count ∅ = 0.
Proof. unfold total_count. by rewrite map_fold_empty. Qed.

Lemma total_count_insert_fresh map k v :
  map !! k = None → total_count (<[k := v]> map) = v + total_count map.
Proof.
  intros Hk. unfold total_count. rewrite map_fold_insert_L; [done| |done].
  intros. lia.
Qed.

Lemma total_count_insert map k v :
  total_count (<[k := v]> map) = v + total_count map - get map k.
Proof.
  unfold get. destruct (map !! k) as [w|] eqn:Hk; simpl.
  - rewrite <-(insert_delete_eq map k v).
    rewrite total_count_insert_fresh by apply lookup_delete_eq.
    rewrite <-(insert_delete_id map k w) at 2 by done.
    rewrite total_count_insert_fresh by apply lookup_delete_eq. lia.
  - rewrite total_count_insert_fresh by done. lia.
Qed.

Lemma total_count_foldl_count_char S : ∀ map,
  total_count (foldl count_char map S) = total_count map + Z.of_nat (length S).
Proof.
  induction S as [|x S IH]; intros map; simpl foldl.
  { simpl. lia. }
  rewrite IH, count_char_insert, total_count_insert. simpl length. lia.
Qed.

Lemma get_PSEUDO_EOF_scanned S map :
  get (foldl count_char map S) PSEUDO_EOF = get map PSEUDO_EOF.
Proof.
  unfold get. rewrite lookup_foldl_count_char_other; [done|].
  intros c _. apply char_not_PSEUDO_EOF.
Qed.

Lemma buildFrequencyMap_unfold fs filename isFile map :
  buildFrequencyMap fs filename isFile map =
  <[PSEUDO_EOF := 1]> (foldl count_char map (scanned fs filename isFile)).
Proof. unfold buildFrequencyMap, scanned, put. by destruct isFile. Qed.

(** The sum of the counts of the model built from a fresh map. *)
Lemma buildFrequencyMap_total fs filename isFile :
  total_count (buildFrequencyMap fs filename isFile ∅) =
  Z.of_nat (length (scanned fs filename isFile)) + 1.
Proof.
  rewrite buildFrequencyMap_unfold.
  rewrite total_count_insert, get_PSEUDO_EOF_scanned.
  rewrite total_count_foldl_count_char, total_count_empty.
  unfold get. rewrite lookup_empty. simpl. lia.
Qed.


(** The frequency map after [buildFrequencyMap], key by key. *)
Lemma buildFrequencyMap_lookup fs filename isFile map :
  let S := scanned fs filename isFile in
  let model := buildFrequencyMap fs filename isFile map in
  (∀ c, c ∈ S →
     model !! char_to_int c = Some (get map (char_to_int c) + occurrences c S))
  ∧ model !! PSEUDO_EOF = Some 1
  ∧ (∀ k, k ≠ PSEUDO_EOF → (∀ c, c ∈ S → char_to_int c ≠ k) →
     model !! k = map !! k).
Proof.
  intros S model. unfold model. rewrite buildFrequencyMap_unfold. fold S.
  split; [|split].
  - intros c Hc. rewrite lookup_insert_ne by (symmetry; apply char_not_PSEUDO_EOF).
    by apply lookup_foldl_count_char.
  - apply lookup_insert_eq.
  - intros k Hk HS. rewrite lookup_insert_ne by done.
    by apply lookup_foldl_count_char_other.
Qed.



(** ** Abstract codes and the step of Huffman's algorithm *)

Lemma cost_cons w d P : cost ((w, d) :: P) = w * Z.of_nat d + cost P.
Proof. done. Qed.

Lemma cost_perm P P' : P ≡ₚ P' → cost P = cost P'.
Proof.
  induction 1 as [|[w d] P P' _ IH|[w1 d1] [w2 d2] P|P1 P2 P3 _ IH1 _ IH2];
    rewrite ?cost_cons; lia || done.
Qed.

Lemma ksum_cons N d ds : ksum N (d :: ds) = (2 ^ (N - d) + ksum N ds)%nat.
Proof. done. Qed.

Lemma ksum_perm N ds ds' : ds ≡ₚ ds' → ksum N ds = ksum N ds'.
Proof.
  induction 1 as [|d P P' _ IH|d1 d2 P|P1 P2 P3 _ IH1 _ IH2];
    rewrite ?ksum_cons; lia || done.
Qed.

#[global] Instance cost_proper : Proper ((≡ₚ) ==> (=)) cost.
Proof. intros ??. apply cost_perm. Qed.

#[global] Instance ksum_proper N : Proper ((≡ₚ) ==> (=)) (ksum N).
Proof. intros ??. apply ksum_perm. Qed.

#[global] Instance kraft_proper N : Proper ((≡ₚ) ==> iff) (kraft N).
Proof. intros ds ds' Hp. unfold kraft. by rewrite Hp. Qed.

Lemma ksum_scale N ds :
  Forall (λ d, d ≤ N)%nat ds → ksum (S N) ds = (2 * ksum N ds)%nat.
Proof.
  induction 1 as [|d ds Hd _ IH]; [done|].
  rewrite !ksum_cons, IH. replace (S N - d)%nat with (S (N - d)) by lia.
  rewrite Nat.pow_succ_r'. lia.
Qed.

Lemma kraft_lower N ds :
  kraft (S N) ds → Forall (λ d, d ≤ N)%nat ds → kraft N ds.
Proof.
  intros [_ Hsum] Hle. split; [done|].
  rewrite ksum_scale, Nat.pow_succ_r' in Hsum by done. lia.
Qed.

(** The Kraft sum can be taken at the greatest depth. *)
Lemma kraft_max N : ∀ ds,
  kraft N ds → ds ≠ [] → ∃ M, kraft M ds ∧ M ∈ ds.
Proof.
  induction N as [|N IH]; intros ds Hk Hne.
  - exists 0%nat. split; [done|].
    destruct ds as [|d ds]; [done|]. destruct Hk as [Hle _].
    apply Forall_cons in Hle as [Hd _]. replace d with 0%nat by lia. left.
  - destruct (decide (Forall (λ d, d ≤ N)%nat ds)) as [Hle|Hnle].
    + apply IH; [by apply kraft_lower | done].
    + exists (S N). split; [done|].
      apply not_Forall_Exists in Hnle; [|apply _].
      apply Exists_exists in Hnle as (d & Hin & Hd).
      destruct Hk as [Hle _]. rewrite Forall_forall in Hle.
      specialize (Hle d Hin). simpl in *.
      replace (S N) with d by lia. done.
Qed.

Lemma ksum_even M ds :
  Forall (λ d, d < M)%nat ds → ∃ k, ksum M ds = (2 * k)%nat.
Proof.
  induction 1 as [|d ds Hd _ [k IH]]; [by exists 0%nat|].
  rewrite ksum_cons, IH. replace (M - d)%nat with (S (M - d - 1)) by lia.
  rewrite Nat.pow_succ_r'. exists (2 ^ (M - d - 1) + k)%nat. lia.
Qed.

Lemma ksum_zero ds :
  Forall (λ d, d ≤ 0)%nat ds → ksum 0 ds = length ds.
Proof.
  induction 1 as [|d ds Hd _ IH]; [done|].
  rewrite ksum_cons, IH. simpl. lia.
Qed.

(** With at least two symbols, the greatest depth is positive and is the
    depth of at least two of them. *)
Lemma kraft_two_deepest M ds :
  kraft M ds → M ∈ ds → (2 ≤ length ds)%nat →
  (1 ≤ M)%nat ∧ ∃ ds', ds ≡ₚ M :: M :: ds'.
Proof.
  intros [Hle Hsum] Hin Hlen.
  assert (1 ≤ M)%nat as HM.
  { destruct M; [|lia]. rewrite ksum_zero in Hsum by done. simpl in Hsum. lia. }
  split; [done|].
  apply elem_of_Permutation in Hin as [ds1 Hp].
  destruct (decide (M ∈ ds1)) as [Hin1|Hnin].
  - apply elem_of_Permutation in Hin1 as [ds2 Hp2].
    exists ds2. by rewrite Hp, Hp2.
  - exfalso. rewrite Hp in Hsum, Hle. apply Forall_cons in Hle as [_ Hle].
    destruct (ksum_even M ds1) as [k Hk].
    { rewrite Forall_forall in Hle |- *. intros d Hd.
      specialize (Hle d Hd). simpl in Hle.
      assert (d ≠ M) by (by intros ->). lia. }
    rewrite ksum_cons, Hk, Nat.sub_diag in Hsum.
    assert (2 ^ M = 2 * 2 ^ (M - 1))%nat as Hpow.
    { rewrite <-Nat.pow_succ_r'. f_equal. lia. }
    rewrite Hpow in Hsum. simpl in Hsum. lia.
Qed.

(** Moving the least weight to the greatest depth does not raise the cost. *)
Lemma sink_least (P : list (Z * nat)) (a : Z) (M : nat) :
  a ∈ P.*1 → M ∈ P.*2 →
  Forall (λ w, a ≤ w) P.*1 → Forall (λ d, d ≤ M)%nat P.*2 →
  ∃ Q, P.*1 ≡ₚ a :: Q.*1 ∧ P.*2 ≡ₚ M :: Q.*2 ∧ cost ((a, M) :: Q) ≤ cost P.
Proof.
  intros Ha HM Hmin Hmax.
  apply list_elem_of_fmap in HM as ([x M'] & -> & HxM). simpl in *.
  apply elem_of_Permutation in HxM as [P1 Hp].
  assert (a ∈ x :: P1.*1) as Ha'.
  { by rewrite Hp in Ha. }
  apply elem_of_cons in Ha' as [->|Ha'].
  { exists P1. rewrite Hp. done. }
  apply list_elem_of_fmap in Ha' as ([a' d] & -> & Had). simpl in *.
  apply elem_of_Permutation in Had as [P2 Hp2].
  exists ((x, d) :: P2).
  assert (P ≡ₚ (x, M') :: (a', d) :: P2) as HP by (by rewrite Hp, Hp2).
  rewrite HP in Hmin, Hmax |- *. rewrite !fmap_cons in *. simpl fst in *.
  simpl snd in *.
  split; [apply Permutation_swap|]. split; [done|].
  rewrite !cost_cons.
  apply Forall_cons in Hmin as [Hax _].
  apply Forall_cons in Hmax as [_ Hmax]. apply Forall_cons in Hmax as [HdM _].
  nia.
Qed.

(** The step of Huffman's algorithm on abstract codes: a code for the
    weights [a :: b :: rest], where [a] and [b] are the two least, yields a
    code for [a + b :: rest] that is cheaper by [a + b]. *)
Lemma merge_least (P : list (Z * nat)) (N : nat) (a b : Z) (rest : list Z) :
  kraft N P.*2 → P.*1 ≡ₚ a :: b :: rest →
  Forall (λ w, a ≤ w) (b :: rest) → Forall (λ w, b ≤ w) rest →
  ∃ P' N', kraft N' P'.*2 ∧ P'.*1 ≡ₚ (a + b) :: rest
           ∧ cost P' + a + b ≤ cost P.
Proof.
  intros Hk Hw Hmina Hminb.
  assert (length P.*2 = length P.*1) as Hlen by (by rewrite !length_fmap).
  apply kraft_max in Hk as (M & Hk & HM).
  2:{ intros Hnil. rewrite Hnil, Hw in Hlen. done. }
  destruct (kraft_two_deepest M _ Hk HM) as (HM1 & ds & Hds).
  { rewrite Hlen, Hw. simpl. lia. }
  destruct (sink_least P a M) as (Q & HQ1 & HQ2 & HQc).
  { rewrite Hw. left. }
  { done. }
  { rewrite Hw. constructor; [lia|done]. }
  { apply Hk. }
  assert (Q.*1 ≡ₚ b :: rest) as HQw.
  { apply (inj (a ::.)). by rewrite <-HQ1, Hw. }
  assert (Q.*2 ≡ₚ M :: ds) as HQd.
  { apply (inj (M ::.)). by rewrite <-HQ2, Hds. }
  destruct (sink_least Q b M) as (R & HR1 & HR2 & HRc).
  { rewrite HQw. left. }
  { rewrite HQd. left. }
  { rewrite HQw. constructor; [lia|done]. }
  { destruct Hk as [Hle _]. rewrite Hds in Hle.
    apply Forall_cons in Hle as [_ Hle]. by rewrite HQd. }
  assert (R.*1 ≡ₚ rest) as HRw.
  { apply (inj (b ::.)). by rewrite <-HR1, HQw. }
  assert (R.*2 ≡ₚ ds) as HRd.
  { apply (inj (M ::.)). by rewrite <-HR2, HQd. }
  exists ((a + b, (M - 1)%nat) :: R), M. split; [|split].
  - simpl. rewrite HRd. destruct Hk as [Hle Hsum]. rewrite Hds in Hle, Hsum.
    apply Forall_cons in Hle as [_ Hle]. apply Forall_cons in Hle as [_ Hle].
    split.
    + constructor; [lia|done].
    + rewrite !ksum_cons in *. rewrite Nat.sub_diag in Hsum.
      replace (M - (M - 1))%nat with 1%nat by lia. simpl in *. lia.
  - simpl. by rewrite HRw.
  - rewrite !cost_cons in *. rewrite Nat2Z.inj_sub by done. simpl. nia.
Qed.

(** A code for a single symbol costs nothing. *)
Lemma cost_single (P : list (Z * nat)) (N : nat) (w : Z) :
  kraft N P.*2 → P.*1 ≡ₚ [w] → cost P = 0.
Proof.
  intros [Hle Hsum] Hw. apply Permutation_singleton_r in Hw.
  destruct P as [|[w' d] [|? ?]]; try done. simpl in *.
  apply Forall_cons in Hle as [Hd _].
  assert (d = 0)%nat as ->; [|lia].
  destruct d; [done|]. exfalso.
  assert (2 ^ (N - S d) < 2 ^ N)%nat; [|lia].
  apply Nat.pow_lt_mono_r; lia.
Qed.

(** ** The loop of [buildEncodingTree] *)

Section MergeLoop.
Context `{PQ : PriorityQueue}.

Lemma merge_loop_unfold fuel q :
  merge_loop fuel q =
  if decide (1 < pq_size q)%nat then
    match fuel with
    | O => Fail FuelExhausted
    | S fuel =>
        firstNode ← top q;
        let q := pq_pop q in
        next ← top q;
        if decide (next ≠ nullptr) then
          let secondNode := next in
          let q := pq_pop q in
          c1 ← node_count firstNode;
          c2 ← node_count secondNode;
          let sumNode :=
            new_HuffmanNode NOT_A_CHAR (int_add c1 c2) firstNode secondNode in
          merge_loop fuel (pq_push sumNode q)
        else merge_loop fuel q
    end
  else Ok q.
Proof. by destruct fuel. Qed.

Lemma top_contents q :
  pq_contents q ≠ [] →
  ∃ x, top q = Ok x ∧ pq_contents q ≡ₚ x :: pq_contents (pq_pop q)
       ∧ ∀ y, y ∈ pq_contents q → count_of x ≤ count_of y.
Proof.
  intros Hne. unfold top. destruct (pq_top q) as [x|] eqn:Htop.
  - exists x. split; [done|]. split; [by apply pq_top_pop|].
    intros y Hy. pose proof (pq_top_first q x y Htop Hy) as Hc.
    unfold compare in Hc. lia.
  - by apply pq_top_None in Htop.
Qed.

Lemma top_singleton q t : pq_contents q = [t] → top q = Ok t.
Proof.
  intros Hq. destruct (top_contents q) as (x & -> & Hperm & _).
  { by rewrite Hq. }
  rewrite Hq in Hperm. f_equal.
  assert (x ∈ [t]) as Hx by (rewrite Hperm; left).
  by apply list_elem_of_singleton in Hx.
Qed.

Variable I : list HuffmanNode → Prop.
Hypothesis I_perm : ∀ F F', F ≡ₚ F' → I F → I F'.
Hypothesis I_nonnull : ∀ F, I F → Forall (λ t, t ≠ nullptr) F.
Hypothesis I_merge : ∀ a b rest,
  I (a :: b :: rest) →
  (∀ y, y ∈ b :: rest → count_of a ≤ count_of y) →
  (∀ y, y ∈ rest → count_of b ≤ count_of y) →
  I (new_HuffmanNode NOT_A_CHAR (int_add (count_of a) (count_of b)) a b :: rest).

Lemma merge_loop_invariant fuel : ∀ q,
  (pq_size q ≤ fuel)%nat → I (pq_contents q) → pq_contents q ≠ [] →
  ∃ q' t, merge_loop fuel q = Ok q' ∧ pq_contents q' = [t] ∧ I [t].
Proof.
  induction fuel as [|fuel IH]; intros q Hsize HI Hne;
    rewrite merge_loop_unfold; rewrite pq_size_contents in Hsize;
    (destruct (decide (1 < pq_size q)%nat) as [Hgt|Hle];
      rewrite pq_size_contents in *; [|
        exists q; destruct (pq_contents q) as [|t [|? ?]] eqn:Hq;
          simpl in *; [done| by exists t |lia]]).
  { lia. }
  destruct (top_contents q Hne) as (a & -> & Hpa & Hmina). simpl.
  assert (pq_contents (pq_pop q) ≠ []) as Hne'.
  { intros Hnil. rewrite Hnil in Hpa. apply Permutation_length in Hpa.
    simpl in Hpa. lia. }
  destruct (top_contents _ Hne') as (b & -> & Hpb & Hminb). simpl.
  set (rest := pq_contents (pq_pop (pq_pop q))) in *.
  assert (pq_contents q ≡ₚ a :: b :: rest) as Hp by (by rewrite Hpa, Hpb).
  assert (I (a :: b :: rest)) as HI' by (by eapply I_perm).
  pose proof (I_nonnull _ HI') as Hnn.
  apply Forall_cons in Hnn as [Ha Hnn]. apply Forall_cons in Hnn as [Hb _].
  rewrite decide_True by done.
  destruct a as [|ca ka za oa]; [done|]. destruct b as [|cb kb zb ob]; [done|].
  simpl.
  apply IH.
  - rewrite pq_size_contents, pq_contents_push. fold rest.
    apply Permutation_length in Hp. simpl in *. lia.
  - eapply I_perm; [symmetry; apply pq_contents_push|]. fold rest.
    apply (I_merge _ _ _ HI').
    + intros y Hy. apply Hmina. rewrite Hpa, Hpb. by right.
    + intros y Hy. apply Hminb. rewrite Hpb. by right.
  - intros Hnil. pose proof (pq_contents_push
      (new_HuffmanNode NOT_A_CHAR (int_add ka kb) (new_HuffmanNode ca ka za oa)
         (new_HuffmanNode cb kb zb ob)) (pq_pop (pq_pop q))) as Hpush.
    rewrite Hnil in Hpush. by apply Permutation_nil_cons in Hpush.
Qed.

End MergeLoop.

(** ** Measures of trees *)

Lemma built_nonnull t : built t → t ≠ nullptr.
Proof. by destruct t. Qed.

Lemma full_nonnull t : full t → t ≠ nullptr.
Proof. by destruct t. Qed.

(** Unfolding at a node with two children. *)
Lemma leaves_node c k a b :
  a ≠ nullptr → leaves (new_HuffmanNode c k a b) = leaves a ++ leaves b.
Proof. by destruct a. Qed.

Lemma wpl_from_node d c k a b :
  a ≠ nullptr →
  wpl_from d (new_HuffmanNode c k a b) = wpl_from (S d) a + wpl_from (S d) b.
Proof. by destruct a. Qed.

Lemma leaf_depths_node d c k a b :
  a ≠ nullptr →
  leaf_depths d (new_HuffmanNode c k a b) =
  leaf_depths (S d) a ++ leaf_depths (S d) b.
Proof. by destruct a. Qed.

Lemma leaf_sum_node c k a b :
  a ≠ nullptr → leaf_sum (new_HuffmanNode c k a b) = leaf_sum a + leaf_sum b.
Proof. by destruct a. Qed.

Lemma height_node c k a b :
  a ≠ nullptr →
  height (new_HuffmanNode c k a b) = S (height a `max` height b).
Proof. by destruct a. Qed.

(** Induction on full trees. *)
Lemma full_ind (Q : HuffmanNode → Prop) :
  (∀ c k, Q (new_HuffmanNode c k nullptr nullptr)) →
  (∀ c k a b, full a → full b → Q a → Q b → Q (new_HuffmanNode c k a b)) →
  ∀ t, full t → Q t.
Proof.
  intros Hleaf Hnode. induction t as [|c k a IHa b IHb]; [done|].
  intros [[-> ->]|[Ha Hb]]; auto.
Qed.

Lemma built_full t : built t → full t.
Proof.
  induction t as [|c k a IHa b IHb]; [done|].
  intros [?|(_ & _ & Ha & Hb)]; [by left|]. right. auto.
Qed.

Lemma built_count t : built t → count_of t = leaf_sum t.
Proof.
  induction t as [|c k a IHa b IHb]; [done|].
  intros [[-> ->]|(_ & -> & Ha & Hb)]; [done|].
  rewrite leaf_sum_node by (by apply built_nonnull). simpl.
  by rewrite IHa, IHb.
Qed.

Lemma built_shaped t : built t → shaped t.
Proof.
  induction t as [|c k a IHa b IHb]; [done|].
  intros [?|(-> & _ & Ha & Hb)]; [by left|]. right. auto.
Qed.

Lemma shaped_nonnull t : shaped t → t ≠ nullptr.
Proof. by destruct t. Qed.

Lemma shaped_full t : shaped t → full t.
Proof.
  induction t as [|c k a IHa b IHb]; [done|].
  intros [?|(_ & Ha & Hb)]; [by left|]. right. auto.
Qed.

(** A sum within the range of [int] is the sum. *)
Lemma int_add_small a b :
  - 2 ^ 31 ≤ a + b < 2 ^ 31 → int_add a b = a + b.
Proof. intros Hr. unfold int_add. rewrite Z.mod_small; lia. Qed.

Lemma wpl_from_S t : ∀ d, wpl_from (S d) t = wpl_from d t + leaf_sum t.
Proof.
  induction t as [|c k a IHa b IHb]; intros d; [done|].
  destruct a as [|ca ka a1 a2].
  - destruct b as [|cb kb b1 b2].
    + cbn [wpl_from leaf_sum]. rewrite Nat2Z.inj_succ. lia.
    + change (wpl_from (S (S d)) nullptr + wpl_from (S (S d)) (new_HuffmanNode cb kb b1 b2)
              = wpl_from (S d) nullptr + wpl_from (S d) (new_HuffmanNode cb kb b1 b2)
                + (leaf_sum nullptr + leaf_sum (new_HuffmanNode cb kb b1 b2))).
      rewrite (IHb (S d)). simpl. lia.
  - rewrite (wpl_from_node (S d)), (wpl_from_node d), leaf_sum_node by done.
    rewrite (IHa (S d)), (IHb (S d)). lia.
Qed.

Lemma cost_app P Q : cost (P ++ Q) = cost P + cost Q.
Proof.
  induction P as [|[w d] P IH]; [done|].
  rewrite <-app_comm_cons, !cost_cons, IH. lia.
Qed.

Lemma cost_leaf_depths t : ∀ d, cost (leaf_depths d t) = wpl_from d t.
Proof.
  induction t as [|c k a IHa b IHb]; intros d; [done|].
  destruct a as [|ca ka a1 a2].
  - destruct b as [|cb kb b1 b2].
    + cbn [wpl_from leaf_depths]. rewrite cost_cons. unfold cost. simpl foldr. lia.
    + change (cost (leaf_depths (S d) nullptr ++ leaf_depths (S d) (new_HuffmanNode cb kb b1 b2))
              = wpl_from (S d) nullptr + wpl_from (S d) (new_HuffmanNode cb kb b1 b2)).
      by rewrite cost_app, IHb.
  - rewrite leaf_depths_node, wpl_from_node, cost_app by done.
    by rewrite IHa, IHb.
Qed.

Lemma leaf_depths_counts t : ∀ d, (leaf_depths d t).*1 = (leaves t).*2.
Proof.
  induction t as [|c k a IHa b IHb]; intros d; [done|].
  destruct a as [|ca ka a1 a2].
  - destruct b as [|cb kb b1 b2]; [done|].
    change ((leaf_depths (S d) nullptr ++ leaf_depths (S d) (new_HuffmanNode cb kb b1 b2)).*1
            = (leaves nullptr ++ leaves (new_HuffmanNode cb kb b1 b2)).*2).
    by rewrite !fmap_app, IHb.
  - rewrite leaf_depths_node, leaves_node, !fmap_app by done.
    by rewrite IHa, IHb.
Qed.

Lemma ksum_app N ds ds' : ksum N (ds ++ ds') = (ksum N ds + ksum N ds')%nat.
Proof.
  induction ds as [|d ds IH]; [done|].
  rewrite <-app_comm_cons, !ksum_cons, IH. lia.
Qed.

(** The leaves of a full tree have Kraft sum one. *)
Lemma full_kraft_from t : full t → ∀ d N,
  (d + height t ≤ N)%nat →
  Forall (λ x, x ≤ N)%nat (leaf_depths d t).*2
  ∧ ksum N (leaf_depths d t).*2 = (2 ^ (N - d))%nat.
Proof.
  induction 1 as [c k|c k a b Ha Hb IHa IHb] using full_ind; intros d N Hh.
  - simpl in *. split; [constructor; [lia|done]|]. lia.
  - pose proof (full_nonnull a Ha) as Hna.
    rewrite height_node in Hh by done.
    rewrite leaf_depths_node, fmap_app, ksum_app by done.
    destruct (IHa (S d) N) as [Hla Hsa]; [lia|].
    destruct (IHb (S d) N) as [Hlb Hsb]; [lia|].
    split; [by apply Forall_app|].
    rewrite Hsa, Hsb. replace (N - d)%nat with (S (N - S d)) by lia.
    rewrite Nat.pow_succ_r'. lia.
Qed.

Lemma full_kraft t : full t → kraft (height t) (leaf_depths 0 t).*2.
Proof.
  intros Hf. destruct (full_kraft_from t Hf 0%nat (height t)) as [? Hs]; [lia|].
  split; [done|]. by rewrite Hs, Nat.sub_0_r.
Qed.

(** ** Trees with single-child nodes are no better *)

Lemma contract_unary_r c k b :
  b ≠ nullptr → contract (new_HuffmanNode c k nullptr b) = contract b.
Proof. by destruct b. Qed.

Lemma contract_unary_l c k a :
  a ≠ nullptr → contract (new_HuffmanNode c k a nullptr) = contract a.
Proof. by destruct a. Qed.

Lemma contract_binary c k a b :
  a ≠ nullptr → b ≠ nullptr →
  contract (new_HuffmanNode c k a b) =
  new_HuffmanNode c k (contract a) (contract b).
Proof. by destruct a, b. Qed.

Lemma leaves_unary_r c k b :
  b ≠ nullptr → leaves (new_HuffmanNode c k nullptr b) = leaves b.
Proof. by destruct b. Qed.

Lemma wpl_from_unary_r d c k b :
  b ≠ nullptr → wpl_from d (new_HuffmanNode c k nullptr b) = wpl_from (S d) b.
Proof. by destruct b. Qed.

Lemma leaf_sum_leaves t : leaf_sum t = foldr Z.add 0 (leaves t).*2.
Proof.
  induction t as [|c k a IHa b IHb]; [done|].
  assert (∀ l l' : list Z, foldr Z.add 0 (l ++ l') = foldr Z.add 0 l + foldr Z.add 0 l') as Happ.
  { intros l l'. induction l as [|x l IH]; simpl; lia. }
  destruct a as [|ca ka a1 a2].
  - destruct b as [|cb kb b1 b2]; [simpl; lia|].
    rewrite leaves_unary_r by done.
    change (leaf_sum nullptr + leaf_sum (new_HuffmanNode cb kb b1 b2) =
            foldr Z.add 0 (leaves (new_HuffmanNode cb kb b1 b2)).*2).
    rewrite IHb. simpl. lia.
  - rewrite leaf_sum_node, leaves_node, fmap_app, Happ by done. by rewrite IHa, IHb.
Qed.

Lemma leaf_sum_nonneg t : Forall (λ k, 0 ≤ k) (leaves t).*2 → 0 ≤ leaf_sum t.
Proof.
  rewrite leaf_sum_leaves. induction 1; simpl; lia.
Qed.

Lemma contract_spec t :
  t ≠ nullptr →
  full (contract t) ∧ leaves (contract t) = leaves t
  ∧ (Forall (λ k, 0 ≤ k) (leaves t).*2 →
     ∀ d, wpl_from d (contract t) ≤ wpl_from d t).
Proof.
  induction t as [|c k a IHa b IHb]; [done|]. intros _.
  destruct (decide (a = nullptr)) as [->|Ha];
    destruct (decide (b = nullptr)) as [->|Hb].
  - split; [by left|]. split; [done|]. intros _ d. cbn [contract]. lia.
  - rewrite contract_unary_r, leaves_unary_r by done.
    destruct (IHb Hb) as (Hf & Hl & Hw). split; [done|]. split; [done|].
    intros Hpos d. rewrite wpl_from_unary_r by done.
    specialize (Hw Hpos d). rewrite wpl_from_S.
    pose proof (leaf_sum_nonneg b Hpos). lia.
  - rewrite contract_unary_l, leaves_node by done. simpl leaves.
    rewrite app_nil_r.
    destruct (IHa Ha) as (Hf & Hl & Hw). split; [done|]. split; [done|].
    intros Hpos d. rewrite wpl_from_node by done. simpl wpl_from at 3.
    specialize (Hw Hpos d). rewrite wpl_from_S.
    pose proof (leaf_sum_nonneg a Hpos). lia.
  - rewrite contract_binary by done.
    destruct (IHa Ha) as (Hfa & Hla & Hwa).
    destruct (IHb Hb) as (Hfb & Hlb & Hwb).
    pose proof (full_nonnull _ Hfa) as Hca.
    split; [by right|].
    rewrite !leaves_node, Hla, Hlb by done. split; [done|].
    rewrite fmap_app, Forall_app. intros [Hpa Hpb] d.
    rewrite !wpl_from_node by done.
    specialize (Hwa Hpa (S d)). specialize (Hwb Hpb (S d)). lia.
Qed.

(** ** Sums *)

Lemma sum_app (l l' : list Z) :
  foldr Z.add 0 (l ++ l') = foldr Z.add 0 l + foldr Z.add 0 l'.
Proof. induction l as [|x l IH]; simpl; lia. Qed.

Lemma sum_perm (l l' : list Z) : l ≡ₚ l' → foldr Z.add 0 l = foldr Z.add 0 l'.
Proof. induction 1; simpl; lia. Qed.

Lemma total_count_sum (map : hashmapF) :
  total_count map = foldr Z.add 0 (map_to_list map).*2.
Proof.
  unfold total_count. rewrite map_fold_foldr.
  induction (map_to_list map) as [|[k v] l IH]; [done|].
  simpl. by rewrite IH.
Qed.

Lemma sum_nonneg (l : list Z) : Forall (λ k, 0 ≤ k) l → 0 ≤ foldr Z.add 0 l.
Proof. induction 1; simpl; lia. Qed.

(** ** The forest held by the priority queue *)

Lemma concat_leaves_cons t F :
  concat (leaves <$> t :: F) = leaves t ++ concat (leaves <$> F).
Proof. done. Qed.

Lemma forest_wpl_perm F F' : F ≡ₚ F' → forest_wpl F = forest_wpl F'.
Proof.
  unfold forest_wpl.
  induction 1 as [|t F F' _ IH|t1 t2 F|F1 F2 F3 _ IH1 _ IH2]; simpl; lia.
Qed.

Lemma forest_inv_perm map F F' : F ≡ₚ F' → forest_inv map F → forest_inv map F'.
Proof.
  intros Hp (Hb & Hl & Hopt). split; [by rewrite <-Hp|]. split.
  - by rewrite <-Hp.
  - intros P0 N0 Hk Hw. destruct (Hopt P0 N0 Hk Hw) as (P & N & ? & ? & ?).
    exists P, N. rewrite <-(forest_wpl_perm _ _ Hp).
    split; [done|]. split; [|done]. by rewrite <-Hp.
Qed.

Lemma forest_inv_nonnull map F :
  forest_inv map F → Forall (λ t, t ≠ nullptr) F.
Proof. intros [Hb _]. eapply Forall_impl; [done|]. apply built_nonnull. Qed.

Lemma forest_inv_merge map a b rest :
  forest_inv map (a :: b :: rest) →
  (∀ y, y ∈ b :: rest → count_of a ≤ count_of y) →
  (∀ y, y ∈ rest → count_of b ≤ count_of y) →
  forest_inv map
    (new_HuffmanNode NOT_A_CHAR (count_of a + count_of b) a b :: rest).
Proof.
  intros (Hb & Hl & Hopt) Hmina Hminb.
  apply Forall_cons in Hb as [Ha Hb]. apply Forall_cons in Hb as [Hb Hrest].
  pose proof (built_nonnull a Ha) as Hna.
  split; [|split].
  - constructor; [|done]. right. done.
  - rewrite <-Hl, !concat_leaves_cons, leaves_node by done.
    by rewrite (assoc (++)).
  - intros P0 N0 Hk Hw. destruct (Hopt P0 N0 Hk Hw) as (P & N & HkP & HwP & Hc).
    destruct (merge_least P N (count_of a) (count_of b) (count_of <$> rest))
      as (P' & N' & HkP' & HwP' & Hc'); [done|done| | |].
    { rewrite <-fmap_cons. apply Forall_fmap, Forall_forall. intros y Hy.
      by apply Hmina. }
    { apply Forall_fmap, Forall_forall. intros y Hy. by apply Hminb. }
    exists P', N'. split; [done|]. split; [done|].
    unfold forest_wpl in *. simpl in *. unfold weighted_path_length in *.
    rewrite wpl_from_node, !wpl_from_S by done.
    rewrite <-!built_count by done. lia.
Qed.

(** The sum of the two least counts stays in the range of [int] when the
    counts of the map are not negative and add up to [INT_MAX] at most. *)
Lemma forest_counts_fit map a b rest :
  (∀ key count, map !! key = Some count → 0 ≤ count) →
  total_count map ≤ INT_MAX →
  forest_inv map (a :: b :: rest) →
  0 ≤ count_of a + count_of b ≤ INT_MAX.
Proof.
  intros Hpos Hbound (Hb & Hl & _).
  apply Forall_cons in Hb as [Ha Hb]. apply Forall_cons in Hb as [Hb _].
  rewrite (built_count a Ha), (built_count b Hb), !leaf_sum_leaves.
  assert (Forall (λ k, 0 ≤ k) (concat (leaves <$> a :: b :: rest)).*2) as Hall.
  { rewrite Hl. apply Forall_fmap, Forall_forall.
    intros [k v] Hin%elem_of_map_to_list. simpl. by eapply Hpos. }
  rewrite total_count_sum, <-(sum_perm _ _ (fmap_Permutation snd _ _ Hl)) in Hbound.
  rewrite !concat_leaves_cons, !fmap_app in Hall, Hbound.
  rewrite !sum_app in Hbound.
  apply Forall_app in Hall as [HA Hall]. apply Forall_app in Hall as [HB HR].
  apply sum_nonneg in HA, HB, HR. lia.
Qed.

Lemma forest_inv_merge_int map a b rest :
  (∀ key count, map !! key = Some count → 0 ≤ count) →
  total_count map ≤ INT_MAX →
  forest_inv map (a :: b :: rest) →
  (∀ y, y ∈ b :: rest → count_of a ≤ count_of y) →
  (∀ y, y ∈ rest → count_of b ≤ count_of y) →
  forest_inv map
    (new_HuffmanNode NOT_A_CHAR (int_add (count_of a) (count_of b)) a b :: rest).
Proof.
  intros Hpos Hbound Hinv Hmina Hminb.
  pose proof (forest_counts_fit map a b rest Hpos Hbound Hinv) as Hfit.
  rewrite int_add_small by (unfold INT_MAX in Hfit; lia).
  by apply forest_inv_merge.
Qed.

Lemma shape_inv_perm map F F' : F ≡ₚ F' → shape_inv map F → shape_inv map F'.
Proof. intros Hp [Hs Hl]. split; by rewrite <-Hp. Qed.

Lemma shape_inv_nonnull map F : shape_inv map F → Forall (λ t, t ≠ nullptr) F.
Proof. intros [Hs _]. eapply Forall_impl; [done|]. apply shaped_nonnull. Qed.

Lemma shape_inv_merge map a b rest k :
  shape_inv map (a :: b :: rest) →
  shape_inv map (new_HuffmanNode NOT_A_CHAR k a b :: rest).
Proof.
  intros [Hs Hl].
  apply Forall_cons in Hs as [Ha Hs]. apply Forall_cons in Hs as [Hb Hrest].
  split.
  - constructor; [|done]. right. done.
  - rewrite <-Hl, !concat_leaves_cons, leaves_node by (by apply shaped_nonnull).
    by rewrite (assoc (++)).
Qed.

Section Building.
Context `{PQ : PriorityQueue}.

Lemma push_leaves_contents map l : ∀ q,
  pq_contents (foldl (push_leaf map) q l) ≡ₚ
  ((λ key, leaf key (get map key)) <$> l) ++ pq_contents q.
Proof.
  induction l as [|key l IH]; intros q; [done|].
  simpl foldl. rewrite IH. unfold push_leaf.
  rewrite pq_contents_push, fmap_cons. simpl.
  by rewrite <-Permutation_middle.
Qed.

Lemma initial_contents map :
  pq_contents (foldl (push_leaf map) pq_new (keys map)) ≡ₚ
  leaf_of <$> map_to_list map.
Proof.
  rewrite push_leaves_contents, pq_contents_new, app_nil_r.
  unfold keys. rewrite <-list_fmap_compose.
  apply Permutation_refl', Forall_fmap_ext, Forall_forall.
  intros [c k] Hin%elem_of_map_to_list.
  unfold leaf_of, get. simpl. by rewrite Hin.
Qed.

Lemma leaves_initial (l : list (Z * Z)) : concat (leaves <$> (leaf_of <$> l)) = l.
Proof.
  induction l as [|[c k] l IH]; [done|].
  by rewrite fmap_cons, concat_leaves_cons, IH.
Qed.

Lemma forest_inv_initial map : forest_inv map (leaf_of <$> map_to_list map).
Proof.
  split; [|split].
  - apply Forall_fmap, Forall_forall. intros [c k] _. by left.
  - by rewrite leaves_initial.
  - intros P0 N0 Hk Hw. exists P0, N0. split; [done|]. split.
    + rewrite Hw, <-list_fmap_compose. done.
    + assert (forest_wpl (leaf_of <$> map_to_list map) = 0) as ->; [|lia].
      clear Hw. induction (map_to_list map) as [|[c k] l IH]; [done|].
      rewrite fmap_cons. unfold forest_wpl in *. rewrite foldr_cons, IH.
      unfold weighted_path_length, leaf_of, leaf. cbn [wpl_from]. lia.
Qed.

Lemma shape_inv_initial map : shape_inv map (leaf_of <$> map_to_list map).
Proof.
  split.
  - apply Forall_fmap, Forall_forall. intros [c k] _. by left.
  - by rewrite leaves_initial.
Qed.

(** [buildEncodingTree] returns a tree for every map that is not empty,
    and the tree keeps what every iteration of the loop preserves. *)
Lemma buildEncodingTree_invariant (map : hashmapF)
    (I : list HuffmanNode → Prop) :
  (∀ F F', F ≡ₚ F' → I F → I F') →
  (∀ F, I F → Forall (λ t, t ≠ nullptr) F) →
  (∀ a b rest,
     I (a :: b :: rest) →
     (∀ y, y ∈ b :: rest → count_of a ≤ count_of y) →
     (∀ y, y ∈ rest → count_of b ≤ count_of y) →
     I (new_HuffmanNode NOT_A_CHAR (int_add (count_of a) (count_of b)) a b
          :: rest)) →
  I (leaf_of <$> map_to_list map) → map ≠ ∅ →
  ∃ t, buildEncodingTree map = Ok t ∧ I [t].
Proof.
  intros I_perm I_nonnull I_merge Hinit Hne. unfold buildEncodingTree.
  set (q := foldl (push_leaf map) pq_new (keys map)).
  destruct (merge_loop_invariant I I_perm I_nonnull I_merge (pq_size q) q)
    as (q' & t & -> & Hq' & Hinv); [done| | |].
  - eapply I_perm; [symmetry; apply initial_contents|]. done.
  - intros Hnil. pose proof (initial_contents map) as Hp. fold q in Hp.
    rewrite Hnil in Hp. symmetry in Hp. apply Permutation_nil_r in Hp.
    apply fmap_nil_inv in Hp. by apply map_to_list_empty_iff in Hp.
  - exists t. simpl. split; [by apply top_singleton | done].
Qed.

(** The shape of the tree, for every map that is not empty. *)
Lemma buildEncodingTree_shape (map : hashmapF) :
  map ≠ ∅ →
  ∃ tree, buildEncodingTree map = Ok tree ∧ shaped tree
          ∧ leaves tree ≡ₚ map_to_list map.
Proof.
  intros Hne.
  destruct (buildEncodingTree_invariant map (shape_inv map))
    as (t & Ht & Hs & Hl); [apply shape_inv_perm | apply shape_inv_nonnull
    | by intros; apply shape_inv_merge | apply shape_inv_initial | done |].
  exists t. split; [done|]. apply Forall_cons in Hs as [Hs _].
  split; [done|]. rewrite <-Hl. simpl. by rewrite app_nil_r.
Qed.

(** The tree of a map whose counts are not negative and add up to
    [INT_MAX] at most. *)
Lemma buildEncodingTree_inv (map : hashmapF) :
  map ≠ ∅ → (∀ key count, map !! key = Some count → 0 ≤ count) →
  total_count map ≤ INT_MAX →
  ∃ t, buildEncodingTree map = Ok t ∧ forest_inv map [t].
Proof.
  intros Hne Hpos Hbound.
  apply (buildEncodingTree_invariant map (forest_inv map));
    [apply forest_inv_perm | apply forest_inv_nonnull
    | intros a b rest; by apply forest_inv_merge_int
    | apply forest_inv_initial | done].
Qed.

End Building.

Lemma shaped_leaves_nonempty t : shaped t → leaves t ≠ [].
Proof.
  induction t as [|c k a IHa b IHb]; [done|].
  intros [[-> ->]|(_ & Ha & Hb)]; [done|].
  rewrite leaves_node by (by apply shaped_nonnull).
  intros [Hnil _]%app_eq_nil. by apply IHa.
Qed.

Lemma shaped_well_formed t :
  shaped t → Forall (λ e, e.1 ≠ NOT_A_CHAR) (leaves t) → well_formed t.
Proof.
  induction t as [|c k a IHa b IHb]; [done|].
  intros [[-> ->]|(-> & Ha & Hb)] Hl.
  - left. apply Forall_cons in Hl as [Hc _]. done.
  - right. rewrite leaves_node in Hl by (by apply shaped_nonnull).
    apply Forall_app in Hl as [Hla Hlb]. auto.
Qed.

Lemma well_formed_nonnull t : well_formed t → t ≠ nullptr.
Proof. by destruct t. Qed.

Lemma well_formed_nodes t :
  well_formed t → ∀ n, n ∈ nodes t → is_leaf n ∨ is_internal n.
Proof.
  induction t as [|c k a IHa b IHb]; [done|].
  intros Hwf n Hn. simpl in Hn. apply elem_of_cons in Hn as [->|Hn].
  - destruct Hwf as [(Hc & -> & ->)|(-> & Ha & Hb)].
    + left. by exists c, k.
    + right. exists k, a, b.
      split; [done|]. split; by apply well_formed_nonnull.
  - destruct Hwf as [(Hc & -> & ->)|(-> & Ha & Hb)].
    + by apply not_elem_of_nil in Hn.
    + apply elem_of_app in Hn as [Hn|Hn]; auto.
Qed.

Section TreeTheorems.
Context `{PQ : PriorityQueue}.

(** The tree built, its shape, its counts and its leaves, when no sum of
    counts leaves the range of [int]. *)
Lemma buildEncodingTree_built (map : hashmapF) :
  map ≠ ∅ → (∀ key count, map !! key = Some count → 0 ≤ count) →
  total_count map ≤ INT_MAX →
  ∃ tree, buildEncodingTree map = Ok tree ∧ built tree
          ∧ leaves tree ≡ₚ map_to_list map.
Proof.
  intros Hne Hpos Hbound.
  destruct (buildEncodingTree_inv map Hne Hpos Hbound) as (t & Ht & Hb & Hl & _).
  exists t. split; [done|]. apply Forall_cons in Hb as [Hb _].
  split; [done|]. rewrite <-Hl. simpl. by rewrite app_nil_r.
Qed.

Lemma buildEncodingTree_well_formed (map : hashmapF) :
  map ≠ ∅ → map !! NOT_A_CHAR = None →
  ∃ tree, buildEncodingTree map = Ok tree ∧ well_formed tree
          ∧ leaves tree ≡ₚ map_to_list map.
Proof.
  intros Hne Hmarker.
  destruct (buildEncodingTree_shape map Hne) as (t & Ht & Hb & Hl).
  exists t. split; [done|]. split; [|done].
  apply shaped_well_formed; [done|]. rewrite Hl.
  apply Forall_forall. intros [c k] Hin%elem_of_map_to_list. simpl.
  intros ->. congruence.
Qed.

(** C4. Every node of the tree returned by [buildEncodingTree], for a
    frequency model that is not empty and does not use the internal marker
    as a symbol, is either a leaf (its character is not the internal marker
    and it has no child) or an internal node (its character is the internal
    marker and both children are present). *)
Theorem tree_nodes_leaf_or_internal (map : hashmapF) :
  map ≠ ∅ → map !! NOT_A_CHAR = None →
  ∃ tree, buildEncodingTree map = Ok tree
          ∧ ∀ n, n ∈ nodes tree → is_leaf n ∨ is_internal n.
Proof.
  intros Hne Hmarker.
  destruct (buildEncodingTree_well_formed map Hne Hmarker) as (t & Ht & Hwf & _).
  exists t. split; [done|]. by apply well_formed_nodes.
Qed.

(** C3, amended. For every frequency model that is not empty, with counts
    that are not negative and add up to [INT_MAX] at most, the tree
    returned by [buildEncodingTree] carries the symbols of the model at its
    leaves and has the least weighted path length (sum over the symbols of
    count times depth) among all binary trees that carry these symbols,
    with these counts, at their leaves. *)
Theorem tree_optimal (map : hashmapF) :
  map ≠ ∅ → (∀ key count, map !! key = Some count → 0 ≤ count) →
  total_count map ≤ INT_MAX →
  ∃ tree, buildEncodingTree map = Ok tree
          ∧ leaves tree ≡ₚ map_to_list map
          ∧ ∀ other, leaves other ≡ₚ map_to_list map →
              weighted_path_length tree ≤ weighted_path_length other.
Proof.
  intros Hne Hpos Hbound.
  destruct (buildEncodingTree_inv map Hne Hpos Hbound)
    as (t & Ht & Hb & Hl & Hopt).
  exists t. split; [done|]. split.
  { rewrite <-Hl. simpl. by rewrite app_nil_r. }
  intros other Hother.
  assert (other ≠ nullptr) as Hnn.
  { intros ->. simpl in Hother. apply Permutation_nil_l in Hother.
    symmetry in Hother. by apply map_to_list_empty_iff in Hother. }
  destruct (contract_spec other Hnn) as (Hfull & Hleaves & Hwpl).
  destruct (Hopt (leaf_depths 0 (contract other)) (height (contract other)))
    as (P & N & Hk & Hw & Hc).
  { by apply full_kraft. }
  { by rewrite leaf_depths_counts, Hleaves, Hother. }
  rewrite (cost_single P N (count_of t)) in Hc by done.
  rewrite cost_leaf_depths in Hc.
  unfold forest_wpl in Hc. simpl in Hc.
  unfold weighted_path_length in *.
  etrans; [|apply Hwpl].
  - lia.
  - rewrite Hother. apply Forall_fmap, Forall_forall.
    intros [c k] Hin%elem_of_map_to_list. simpl. by eapply Hpos.
Qed.

(** A map with a single symbol *)
Lemma buildEncodingTree_singleton (c n : Z) :
  buildEncodingTree {[c := n]} = Ok (new_HuffmanNode c n nullptr nullptr).
Proof.
  destruct (buildEncodingTree_shape {[c := n]}) as (t & Ht & Hb & Hl).
  { apply insert_non_empty. }
  rewrite Ht. f_equal. rewrite map_to_list_singleton in Hl.
  apply Permutation_singleton_r in Hl.
  destruct t as [|c' k a b]; [done|].
  destruct Hb as [[-> ->]|(_ & Ha & Hb)].
  - simpl in Hl. by injection Hl as -> ->.
  - rewrite leaves_node in Hl by (by apply shaped_nonnull).
    apply shaped_leaves_nonempty in Ha, Hb.
    destruct (leaves a) as [|? [|? ?]], (leaves b); done.
Qed.

(** An empty model makes [buildEncodingTree] call [top()] on an empty
    queue. *)
Lemma buildEncodingTree_empty : buildEncodingTree ∅ = Fail EmptyQueueTop.
Proof.
  unfold buildEncodingTree, keys. rewrite map_to_list_empty. simpl.
  rewrite merge_loop_unfold, pq_size_contents, pq_contents_new. simpl.
  unfold top. by rewrite (proj2 (pq_top_None pq_new) pq_contents_new).
Qed.

End TreeTheorems.

(** ** The range of the counts *)

(** The count of every node of a built tree lies between zero and the sum
    of the counts of the leaves. *)
Lemma built_counts_range t :
  built t → Forall (λ k, 0 ≤ k) (leaves t).*2 →
  ∀ n, n ∈ nodes t → 0 ≤ count_of n ≤ leaf_sum t.
Proof.
  induction t as [|c k a IHa b IHb]; [done|].
  intros Hb Hpos n Hn.
  pose proof (built_count _ Hb) as Hcount.
  pose proof (leaf_sum_nonneg _ Hpos) as Hsum.
  simpl in Hn. apply elem_of_cons in Hn as [->|Hn]; [lia|].
  destruct Hb as [[-> ->]|(_ & _ & Ha & Hb)].
  { by apply not_elem_of_nil in Hn. }
  pose proof (built_nonnull a Ha) as Hna.
  rewrite leaves_node, fmap_app, Forall_app in Hpos by done.
  destruct Hpos as [Hpa Hpb].
  rewrite leaf_sum_node by done.
  pose proof (leaf_sum_nonneg _ Hpa). pose proof (leaf_sum_nonneg _ Hpb).
  apply elem_of_app in Hn as [Hn|Hn].
  - specialize (IHa Ha Hpa n Hn). lia.
  - specialize (IHb Hb Hpb n Hn). lia.
Qed.

Section CountsRange.
Context `{PQ : PriorityQueue}.

(** X3. No addition of [util.h] overflows an [int] on an input of fewer than
    [INT_MAX] characters: the counts of the frequency model lie between 1
    and the length of the input, and the count of every node of the
    encoding tree is at most the length plus one. *)
Lemma counts_fit_int (fs : filesystem) (filename : list ascii) (isFile : bool) :
  let S := scanned fs filename isFile in
  let model := buildFrequencyMap fs filename isFile ∅ in
  Z.of_nat (length S) < INT_MAX →
  (∀ key count, model !! key = Some count → 1 ≤ count ≤ INT_MAX)
  ∧ ∃ tree, buildEncodingTree model = Ok tree
      ∧ ∀ n, n ∈ nodes tree → 0 ≤ count_of n ≤ INT_MAX.
Proof.
  intros S model Hlen.
  destruct (buildFrequencyMap_lookup fs filename isFile ∅) as (Hc & He & Ho).
  fold S in Hc, Ho. fold model in Hc, He, Ho.
  assert (∀ key count, model !! key = Some count →
          1 ≤ count ≤ Z.of_nat (length S) + 1) as Hrange.
  { intros key count Hkey.
    destruct (decide (key = PSEUDO_EOF)) as [->|Hne].
    { rewrite He in Hkey. injection Hkey as <-. lia. }
    destruct (decide (key ∈ char_to_int <$> S)) as [Hin|Hnin].
    - apply list_elem_of_fmap in Hin as (c & -> & Hin).
      rewrite (Hc c Hin) in Hkey. injection Hkey as <-.
      unfold get. rewrite lookup_empty. simpl.
      pose proof (occurrences_pos c S Hin).
      assert (occurrences c S ≤ Z.of_nat (length S)); [|lia].
      unfold occurrences. apply inj_le, length_filter.
    - rewrite Ho in Hkey; [done|done|].
      intros c Hin <-. apply Hnin, list_elem_of_fmap. by exists c. }
  split; [intros key count Hkey; specialize (Hrange key count Hkey); lia|].
  pose proof (buildFrequencyMap_total fs filename isFile) as Htotal.
  fold model S in Htotal.
  destruct (buildEncodingTree_built model) as (tree & Htree & Hb & Hl).
  { intros Hnil. by rewrite Hnil in He. }
  { intros key count Hkey. specialize (Hrange key count Hkey). lia. }
  { lia. }
  exists tree. split; [done|]. intros n Hn.
  destruct (built_counts_range tree Hb) with (n := n) as [Hlo Hhi]; [|done|].
  { rewrite Hl. apply Forall_fmap, Forall_forall.
    intros [k v] Hin%elem_of_map_to_list. simpl.
    specialize (Hrange k v Hin). lia. }
  split; [done|].
  rewrite leaf_sum_leaves, (sum_perm _ (map_to_list model).*2) in Hhi
    by (by rewrite Hl).
  rewrite <-total_count_sum in Hhi.
  pose proof (buildFrequencyMap_total fs filename isFile) as Hsum.
  fold model S in Hsum. lia.
Qed.

End CountsRange.

(** ** The encoding map *)

Lemma code_bits_string path : code_bits (code_string path) = path.
Proof.
  induction path as [|bit path IH]; [done|].
  change (code_bits (bit_char bit :: code_string path) = bit :: path).
  rewrite <-IH at 2. by destruct bit.
Qed.

Lemma code_bits_app c1 c2 : code_bits (c1 ++ c2) = code_bits c1 ++ code_bits c2.
Proof. apply omap_app. Qed.

Lemma code_string_inj p1 p2 : code_string p1 = code_string p2 → p1 = p2.
Proof. intros H. by rewrite <-(code_bits_string p1), H, code_bits_string. Qed.

Lemma code_string_prefix p1 p2 :
  code_string p1 `prefix_of` code_string p2 → p1 `prefix_of` p2.
Proof.
  intros [k Hk]. exists (code_bits k).
  by rewrite <-(code_bits_string p2), Hk, code_bits_app, code_bits_string.
Qed.

Lemma drop_last_snoc (str : list ascii) ch : drop_last (str ++ [ch]) = str.
Proof.
  unfold drop_last. rewrite length_app. simpl.
  replace (length str + 1 - 1)%nat with (length str) by lia.
  by rewrite take_app_length.
Qed.

Lemma emplace_all_app str l1 l2 E :
  emplace_all str (l1 ++ l2) E = emplace_all str l2 (emplace_all str l1 E).
Proof. apply foldl_app. Qed.

Lemma emplace_all_cons_bit str bit l E :
  emplace_all str (prod_map id (cons bit) <$> l) E =
  emplace_all (str ++ [bit_char bit]) l E.
Proof.
  revert E. induction l as [|[c p] l IH]; intros E; [done|].
  rewrite fmap_cons. unfold emplace_all in *. simpl. rewrite IH.
  by rewrite <-(assoc (++)).
Qed.

(** What [_buildEncodingMap] computes when it returns. *)
Lemma _buildEncodingMap_paths t : ∀ E str E',
  _buildEncodingMap t E str = Ok E' → E' = emplace_all str (paths t) E.
Proof.
  induction t as [|c k a IHa b IHb]; intros E str E' Hrun; [done|].
  simpl in Hrun |- *. destruct (decide (c ≠ NOT_A_CHAR)).
  - injection Hrun as <-. unfold emplace_all, code_string. simpl.
    by rewrite app_nil_r.
  - destruct (_buildEncodingMap a E (str ++ ["0"%char])) as [E1|] eqn:Ha; [|done].
    simpl in Hrun. rewrite drop_last_snoc in Hrun.
    apply IHa in Ha as ->. apply IHb in Hrun as ->.
    by rewrite emplace_all_app, !emplace_all_cons_bit.
Qed.

(** [_buildEncodingMap] returns on every tree of the right shape. *)
Lemma _buildEncodingMap_Ok t : well_formed t → ∀ E str,
  ∃ E', _buildEncodingMap t E str = Ok E'.
Proof.
  induction t as [|c k a IHa b IHb]; [done|].
  intros [(Hc & -> & ->)|(-> & Ha & Hb)] E str;
    cbn [_buildEncodingMap]; destruct (decide _) as [?|?]; try done.
  - eauto.
  - destruct (IHa Ha E (str ++ ["0"%char])) as [E1 ->]. simpl.
    apply IHb, Hb.
Qed.

Lemma emplace_lookup key str (E : hashmapE) k :
  emplace key str E !! k =
  match E !! k with
  | Some s => Some s
  | None => if decide (key = k) then Some str else None
  end.
Proof.
  unfold emplace. destruct (E !! key) as [s|] eqn:Hkey.
  - destruct (E !! k) eqn:Hk; [done|]. rewrite decide_False; [done|]. congruence.
  - destruct (decide (key = k)) as [->|Hne].
    + by rewrite lookup_insert_eq, Hkey.
    + rewrite lookup_insert_ne by done. by destruct (E !! k).
Qed.

Lemma emplace_all_lookup_Some str l : ∀ E k s,
  emplace_all str l E !! k = Some s →
  E !! k = Some s ∨ ∃ p, (k, p) ∈ l ∧ s = str ++ code_string p.
Proof.
  induction l as [|[c p] l IH]; intros E k s Hl; [by left|].
  unfold emplace_all in Hl. simpl in Hl. apply IH in Hl as [Hl|(p' & Hin & ->)].
  - rewrite emplace_lookup in Hl. destruct (E !! k); [by left|].
    destruct (decide (c = k)) as [->|]; [|done]. injection Hl as <-.
    right. exists p. split; [left|done].
  - right. exists p'. split; [by right|done].
Qed.

Lemma emplace_all_lookup_old str l : ∀ E k s,
  E !! k = Some s → emplace_all str l E !! k = Some s.
Proof.
  induction l as [|[c p] l IH]; intros E k s Hl; [done|].
  unfold emplace_all. simpl. apply IH. by rewrite emplace_lookup, Hl.
Qed.

Lemma emplace_all_lookup_new str l : ∀ E k p,
  NoDup l.*1 → E !! k = None → (k, p) ∈ l →
  emplace_all str l E !! k = Some (str ++ code_string p).
Proof.
  induction l as [|[c p'] l IH]; intros E k p Hnd Hk Hin.
  { by apply not_elem_of_nil in Hin. }
  rewrite fmap_cons in Hnd. apply NoDup_cons in Hnd as [Hc Hnd].
  unfold emplace_all. simpl.
  apply elem_of_cons in Hin as [[= -> ->]|Hin].
  - apply emplace_all_lookup_old. by rewrite emplace_lookup, Hk, decide_True.
  - apply IH; [done| |done]. rewrite emplace_lookup, Hk.
    rewrite decide_False; [done|]. intros ->. apply Hc.
    apply list_elem_of_fmap. by exists (k, p).
Qed.

(** Two paths of a tree, one a prefix of the other, are the same path to
    the same leaf. *)
Lemma paths_prefix t : ∀ c1 p1 c2 p2,
  (c1, p1) ∈ paths t → (c2, p2) ∈ paths t → p1 `prefix_of` p2 →
  c1 = c2 ∧ p1 = p2.
Proof.
  induction t as [|c k a IHa b IHb]; intros c1 p1 c2 p2 H1 H2 Hpre.
  { by apply not_elem_of_nil in H1. }
  simpl in H1, H2. destruct (decide (c ≠ NOT_A_CHAR)).
  - apply list_elem_of_singleton in H1, H2. by simplify_eq.
  - assert (∀ c0 p0, (c0, p0) ∈ (prod_map id (cons false) <$> paths a)
                              ++ (prod_map id (cons true) <$> paths b) →
            ∃ (bit : bool) q, p0 = bit :: q
                     ∧ (c0, q) ∈ (if bit then paths b else paths a)) as Hsplit.
    { intros c0 p0 [Hin|Hin]%elem_of_app;
        apply list_elem_of_fmap in Hin as ([c' q] & Heq & Hin);
        simpl in Heq; injection Heq as -> ->;
        [exists false, q | exists true, q]; done. }
    apply Hsplit in H1 as (b1 & q1 & -> & H1).
    apply Hsplit in H2 as (b2 & q2 & -> & H2).
    destruct Hpre as [r Hr]. injection Hr as -> Hr.
    assert (q1 `prefix_of` q2) as Hpre by (by exists r).
    destruct b1.
    + destruct (IHb _ _ _ _ H1 H2 Hpre) as [-> ->]. done.
    + destruct (IHa _ _ _ _ H1 H2 Hpre) as [-> ->]. done.
Qed.

(** C7. In every code table built by [buildEncodingMap], the code of a
    symbol is not a prefix of the code of another symbol. *)
Theorem code_table_prefix_free (tree : HuffmanNode) (table : hashmapE) :
  buildEncodingMap tree = Ok table →
  ∀ c1 c2 s1 s2, c1 ≠ c2 →
    table !! c1 = Some s1 → table !! c2 = Some s2 → ¬ s1 `prefix_of` s2.
Proof.
  intros Hrun c1 c2 s1 s2 Hne H1 H2 Hpre.
  apply _buildEncodingMap_paths in Hrun as ->.
  apply emplace_all_lookup_Some in H1 as [H1|(p1 & Hin1 & ->)]; [done|].
  apply emplace_all_lookup_Some in H2 as [H2|(p2 & Hin2 & ->)]; [done|].
  simpl in Hpre. apply code_string_prefix in Hpre.
  by destruct (paths_prefix _ _ _ _ _ Hin1 Hin2 Hpre).
Qed.

(** ** [decode] *)

Lemma walk_cons root cur bit bits :
  walk root cur (bit :: bits) = symbols_from root (child bit cur) bits.
Proof. simpl. by destruct (child bit cur). Qed.

Lemma decode_loop_unfold fuel input encodingTree curNode buildString output :
  decode_loop fuel input encodingTree curNode buildString output =
  if ib_eof input then Ok (buildString, output)
  else
    match fuel with
    | O => Fail FuelExhausted
    | S fuel =>
        match curNode with
        | nullptr => Fail NullDereference
        | new_HuffmanNode character _ _ _ =>
            if decide (character = PSEUDO_EOF) then Ok (buildString, output)
            else
              let '(buildString, output, curNode) :=
                if decide (character ≠ NOT_A_CHAR) then
                  (buildString ++ [int_to_char character],
                   output ++ [int_to_char character], encodingTree)
                else (buildString, output, curNode) in
              let '(bit, input) := readBit input in
              curNode ← follow bit curNode;
              decode_loop fuel input encodingTree curNode buildString output
        end
    end.
Proof. by destruct fuel. Qed.

Lemma well_formed_child bit c k zero one :
  well_formed (new_HuffmanNode c k zero one) → c = NOT_A_CHAR →
  well_formed (child bit (new_HuffmanNode c k zero one)).
Proof. intros [[? _]|(_ & ? & ?)] ?; [done|]. by destruct bit. Qed.

Lemma follow_bit bit c k zero one :
  follow (Z.b2z bit) (new_HuffmanNode c k zero one) =
  Ok (child bit (new_HuffmanNode c k zero one)).
Proof. by destruct bit. Qed.

Lemma decode_loop_eof fuel hdr bits root cur bs out :
  decode_loop fuel {| ib_header := hdr; ib_bits := bits; ib_eof := true |}
    root cur bs out = Ok (bs, out).
Proof. by destruct fuel. Qed.

(** The part of an iteration of [decode] that reads a bit and follows it,
    at a node [cur] that is not null. *)
Lemma decode_read root c k zero one hdr bits fuel bs out :
  (let '(bit, input) := readBit (bit_source hdr bits) in
   curNode ← follow bit (new_HuffmanNode c k zero one);
   decode_loop fuel input root curNode bs out) =
  match bits with
  | [] => Ok (bs, out)
  | bit :: rest =>
      decode_loop fuel (bit_source hdr rest) root
        (child bit (new_HuffmanNode c k zero one)) bs out
  end.
Proof.
  destruct bits as [|bit rest].
  - unfold readBit, bit_source. simpl. by rewrite decode_loop_eof.
  - unfold readBit. simpl ib_bits. cbv iota. by rewrite follow_bit.
Qed.

(** [decode] computes the walk of the specification, whether or not the
    bits reach the sentinel. *)
Lemma decode_loop_walk root :
  well_formed root → is_internal_root root →
  ∀ bits cur fuel hdr bs out,
    well_formed cur → (length bits + 2 ≤ fuel)%nat →
    decode_loop fuel (bit_source hdr bits) root cur bs out =
    Ok (bs ++ chars (symbols_from root cur bits),
        out ++ chars (symbols_from root cur bits)).
Proof.
  intros Hroot (kr & zr & or & ->) bits.
  induction bits as [|bit0 bits IH]; intros cur fuel hdr bs out Hcur Hfuel;
    (destruct fuel as [|fuel]; [simpl in Hfuel; lia|]);
    rewrite decode_loop_unfold; simpl ib_eof; cbv iota;
    (destruct cur as [|c k zero one]; [done|]);
    unfold symbols_from;
    (destruct (decide (c = PSEUDO_EOF)) as [?|Hsent];
      [unfold chars; by rewrite fmap_nil, !app_nil_r|]);
    (destruct (decide (c ≠ NOT_A_CHAR)) as [Hleaf|Hnode]; cbv beta iota zeta);
    rewrite decode_read.
  - done.
  - unfold chars. simpl. by rewrite !app_nil_r.
  - rewrite IH.
    + rewrite walk_cons. unfold chars. rewrite fmap_cons.
      by rewrite <-!(assoc (++)).
    + by apply well_formed_child.
    + simpl in Hfuel. lia.
  - rewrite IH.
    + by rewrite walk_cons.
    + apply well_formed_child; [done|]. by destruct (decide (c = NOT_A_CHAR)).
    + simpl in Hfuel. lia.
Qed.

Lemma decode_unfold input encodingTree output :
  decode input encodingTree output =
  decode_loop (length (ib_bits input) + 2) input encodingTree encodingTree []
    output.
Proof. done. Qed.

(** [decode] returns the symbols of the walk, on every tree of at least two
    symbols. *)
Lemma decode_walk root hdr bits out :
  well_formed root → is_internal_root root →
  decode (bit_source hdr bits) root out =
  Ok (chars (symbols_from root root bits),
      out ++ chars (symbols_from root root bits)).
Proof.
  intros Hwf Hint. rewrite decode_unfold.
  by rewrite (decode_loop_walk root Hwf Hint bits root).
Qed.

(** On the tree that holds the sentinel alone, [decode] returns at once. *)
Lemma decode_sentinel_leaf input k zero one out :
  decode input (new_HuffmanNode PSEUDO_EOF k zero one) out = Ok ([], out).
Proof.
  rewrite decode_unfold, decode_loop_unfold.
  destruct (ib_eof input); [done|].
  by replace (length (ib_bits input) + 2)%nat
    with (S (length (ib_bits input) + 1)) by lia.
Qed.

(** [decode] never runs out of fuel. *)
Lemma decode_loop_fuel : ∀ fuel input root cur bs out,
  (length (ib_bits input) + 2 ≤ fuel)%nat →
  decode_loop fuel input root cur bs out ≠ Fail FuelExhausted.
Proof.
  induction fuel as [|fuel IH]; intros input root cur bs out Hfuel; [lia|].
  rewrite decode_loop_unfold. destruct (ib_eof input) eqn:Heof; [done|].
  destruct cur as [|c k zero one]; [done|].
  destruct (decide (c = PSEUDO_EOF)); [done|].
  destruct input as [hdr bits eof]. simpl in *. subst eof.
  assert (∀ cur' bs' out',
    (let '(bit, input) := readBit (bit_source hdr bits) in
     curNode ← follow bit cur';
     decode_loop fuel input root curNode bs' out') ≠ Fail FuelExhausted) as Hstep.
  { intros [|c' k' z' o'] bs' out'.
    - unfold readBit, bit_source, follow. destruct bits as [|[] rest]; simpl;
        try done. by rewrite decode_loop_eof.
    - rewrite decode_read. destruct bits as [|bit rest]; [done|].
      apply IH. simpl in *. lia. }
  destruct (decide (c ≠ NOT_A_CHAR)); apply Hstep.
Qed.

Lemma decode_terminates input root out :
  decode input root out ≠ Fail FuelExhausted.
Proof. rewrite decode_unfold. by apply decode_loop_fuel. Qed.

(** ** [encode] *)

Lemma add_bits_nil output : add_bits [] output = output.
Proof. destruct output. unfold add_bits. simpl. by rewrite app_nil_r. Qed.

Lemma add_bits_add_bits b1 b2 output :
  add_bits b2 (add_bits b1 output) = add_bits (b1 ++ b2) output.
Proof. unfold add_bits. simpl. by rewrite (assoc (++)). Qed.

Lemma write_code_spec code : ∀ output size,
  write_code code output size =
  (add_bits (code_bits code) output, size + Z.of_nat (length code)).
Proof.
  induction code as [|ch code IH]; intros output size.
  { unfold write_code. simpl. rewrite add_bits_nil. f_equal. lia. }
  unfold write_code in *. simpl foldl.
  assert (∀ b, writeBit b output = add_bits [b] output) as Hw by done.
  unfold code_bits. simpl omap. simpl length.
  destruct (decide (ch = "0"%char)) as [->|H0].
  - rewrite decide_False by done. rewrite IH, Hw, add_bits_add_bits.
    f_equal. lia.
  - destruct (decide (ch = "1"%char)) as [->|H1].
    + rewrite IH, Hw, add_bits_add_bits. f_equal. lia.
    + rewrite IH. f_equal. lia.
Qed.

Lemma encode_chars_Ok (E : hashmapE) S : ∀ output size bs,
  Forall (λ cur, is_Some (E !! char_to_int cur)) S →
  encode_chars S E output size bs =
  Ok (add_bits (code_bits (concat (codes_of E S))) output,
      size + Z.of_nat (length (concat (codes_of E S))),
      bs ++ concat (codes_of E S)).
Proof.
  induction S as [|cur S IH]; intros output size bs HS.
  { simpl. rewrite add_bits_nil, app_nil_r. do 3 f_equal. lia. }
  apply Forall_cons in HS as [[code Hcode] HS].
  simpl. unfold at_. rewrite Hcode. simpl.
  rewrite write_code_spec, IH by done.
  rewrite add_bits_add_bits, code_bits_app, length_app, (assoc (++)).
  do 3 f_equal. lia.
Qed.



(** [encode] with [makeFile] set, when every character read and the
    sentinel have a code. *)
Lemma encode_Ok (input : option (list ascii)) (encodingMap : hashmapE)
    (output : ofbitstream) (size : Z) (eof : list ascii) :
  let S := stream_chars input in
  Forall (λ cur, is_Some (encodingMap !! char_to_int cur)) S →
  encodingMap !! PSEUDO_EOF = Some eof →
  let message := concat (codes_of encodingMap S) ++ eof in
  encode input encodingMap output size true =
    Ok (message, add_bits (code_bits message) output,
        size + Z.of_nat (length message)).
Proof.
  intros S HS Heof message.
  unfold encode. fold S. rewrite encode_chars_Ok by done. simpl.
  unfold at_. rewrite Heof. simpl. rewrite write_code_spec.
  rewrite add_bits_add_bits, <-code_bits_app. unfold message.
  by rewrite length_app, Nat2Z.inj_add, Z.add_assoc.
Qed.



(** ** File names *)

Lemma find_from_unfold s pat i :
  find_from s pat i =
  if bool_decide (pat `prefix_of` s) then i
  else match s with
       | [] => -1
       | _ :: s' => find_from s' pat (i + 1)
       end.
Proof. by destruct s. Qed.

(** The search skips a stretch that does not hold the first character of
    the pattern. *)
Lemma find_from_skip pre s ch pat i :
  ch ∉ pre →
  find_from (pre ++ s) (ch :: pat) i =
  find_from s (ch :: pat) (i + Z.of_nat (length pre)).
Proof.
  revert i. induction pre as [|c pre IH]; intros i Hch.
  { simpl. f_equal. lia. }
  apply not_elem_of_cons in Hch as [Hne Hch].
  rewrite <-app_comm_cons, find_from_unfold.
  rewrite bool_decide_eq_false_2.
  - rewrite IH by done. f_equal. simpl length. lia.
  - intros [k Hk]. injection Hk as <- _. done.
Qed.

Lemma find_from_here s pat i :
  pat `prefix_of` s → find_from s pat i = i.
Proof. intros Hp. by rewrite find_from_unfold, bool_decide_eq_true_2. Qed.

(** The name of the output, for a compressed file named [stem.ext.huf]. *)
Lemma uncompressed_name_extension (stem ext : list ascii) :
  "."%char ∉ stem → "."%char ∉ ext → ¬ lit "huf" `prefix_of` ext →
  uncompressed_name (stem ++ lit "." ++ ext ++ lit ".huf") =
  Ok (stem ++ lit "_unc" ++ lit "." ++ ext).
Proof.
  intros Hstem Hext Hhuf. unfold uncompressed_name.
  assert (find (stem ++ lit "." ++ ext ++ lit ".huf") (lit ".huf")
          = Z.of_nat (length (stem ++ lit "." ++ ext))) as ->.
  { unfold find. change (lit ".huf") with ("."%char :: lit "huf").
    rewrite find_from_skip by done.
    change (lit "." ++ ext ++ "."%char :: lit "huf")
      with ("."%char :: ext ++ "."%char :: lit "huf").
    rewrite find_from_unfold, bool_decide_eq_false_2.
    - rewrite find_from_skip by done. rewrite find_from_here by done.
      rewrite !length_app. simpl length. lia.
    - intros [k Hk]. apply Hhuf. injection Hk as Hk.
      destruct ext as [|a [|b [|c ext]]]; try done.
      injection Hk as -> -> -> _. by exists ext. }
  rewrite decide_True by lia.
  assert (substr (stem ++ lit "." ++ ext ++ lit ".huf") 0
            (Z.of_nat (length (stem ++ lit "." ++ ext)))
          = Ok (stem ++ lit "." ++ ext)) as ->.
  { unfold substr. rewrite decide_False by lia. rewrite decide_False by lia.
    f_equal. rewrite Nat2Z.id, drop_0.
    replace (stem ++ lit "." ++ ext ++ lit ".huf")
      with ((stem ++ lit "." ++ ext) ++ lit ".huf")
      by (by rewrite <-!(assoc (++))).
    by rewrite take_app_length. }
  cbn [mbind result_bind].
  assert (find (stem ++ lit "." ++ ext) (lit ".") = Z.of_nat (length stem)) as ->.
  { unfold find. change (lit ".") with ["."%char].
    rewrite find_from_skip by done. rewrite find_from_here; [lia|].
    by exists ext. }
  unfold substr.
  rewrite !decide_False by (rewrite ?length_app; lia).
  cbn [mbind result_bind]. rewrite Nat2Z.id.
  change (Z.to_nat 0) with 0%nat.
  rewrite drop_0, drop_app_length, take_app_length. do 3 f_equal.
  apply take_ge. rewrite !length_app. simpl. lia.
Qed.

(** ** [compress] and [decompress] *)

Lemma chars_char_to_int S : chars (char_to_int <$> S) = S.
Proof.
  unfold chars. rewrite <-list_fmap_compose.
  induction S as [|c S IH]; [done|].
  rewrite fmap_cons, IH. simpl. by rewrite int_to_char_to_int.
Qed.

Lemma paths_cases c k zero one c0 p0 :
  c = NOT_A_CHAR → (c0, p0) ∈ paths (new_HuffmanNode c k zero one) →
  ∃ (bit : bool) q,
    p0 = bit :: q ∧ (c0, q) ∈ paths (child bit (new_HuffmanNode c k zero one)).
Proof.
  intros -> Hin. simpl in Hin.
  apply elem_of_app in Hin as [Hin|Hin];
    apply list_elem_of_fmap in Hin as ([c' q] & Heq & Hin);
    simpl in Heq; injection Heq as -> ->;
    [exists false, q | exists true, q]; done.
Qed.

(** Following the path of a symbol decodes the symbol. *)
Lemma symbols_from_path root cur : well_formed cur → ∀ c p rest,
  (c, p) ∈ paths cur →
  symbols_from root cur (p ++ rest) =
  if decide (c = PSEUDO_EOF) then [] else c :: walk root root rest.
Proof.
  induction cur as [|c0 k a IHa b IHb]; [done|].
  intros Hwf c p rest Hin.
  destruct Hwf as [(Hc & -> & ->)|(-> & Ha & Hb)].
  - simpl in Hin. rewrite decide_True in Hin by done.
    apply list_elem_of_singleton in Hin as [= -> ->].
    unfold symbols_from. simpl. by rewrite (decide_True _ _ Hc).
  - apply paths_cases in Hin as (bit & q & -> & Hin); [|done].
    unfold symbols_from. rewrite decide_False by done.
    rewrite decide_False by (by intros ?).
    rewrite <-app_comm_cons, walk_cons.
    destruct bit; simpl child in *; auto.
Qed.

Lemma symbols_from_root root bits :
  is_internal_root root → symbols_from root root bits = walk root root bits.
Proof.
  intros (k & zero & one & ->). unfold symbols_from.
  rewrite decide_False by done. by rewrite decide_False by (by intros ?).
Qed.

Lemma well_formed_leaf_or_internal t :
  well_formed t →
  (∃ c k, t = new_HuffmanNode c k nullptr nullptr ∧ c ≠ NOT_A_CHAR)
  ∨ is_internal_root t.
Proof.
  destruct t as [|c k a b]; [done|].
  intros [(Hc & -> & ->)|(-> & _ & _)]; [left|right]; eauto.
  by exists k, a, b.
Qed.

(** A tree with two different symbols has an internal root. *)
Lemma two_symbols_internal t c1 p1 c2 p2 :
  well_formed t → (c1, p1) ∈ paths t → (c2, p2) ∈ paths t → c1 ≠ c2 →
  is_internal_root t.
Proof.
  intros [(c & k & -> & Hc)|Hint]%well_formed_leaf_or_internal H1 H2 Hne;
    [|done].
  simpl in H1, H2. rewrite decide_True in H1, H2 by done.
  apply list_elem_of_singleton in H1, H2. congruence.
Qed.

(** Decoding the paths of a sequence of symbols, followed by the path of
    the sentinel and by anything, gives the sequence back. *)
Lemma symbols_from_encoded root (syms : list (Z * list bool)) pe rest :
  well_formed root →
  Forall (λ entry, entry ∈ paths root ∧ entry.1 ≠ PSEUDO_EOF) syms →
  (PSEUDO_EOF, pe) ∈ paths root →
  symbols_from root root (concat syms.*2 ++ pe ++ rest) = syms.*1.
Proof.
  intros Hwf Hsyms Hpe. induction Hsyms as [|[c p] syms [Hin Hc] _ IH].
  - simpl. rewrite (symbols_from_path root root Hwf _ _ _ Hpe).
    by rewrite decide_True.
  - rewrite !fmap_cons. cbn [fst snd concat] in *. rewrite <-(assoc (++)).
    rewrite (symbols_from_path root root Hwf _ _ _ Hin).
    rewrite decide_False by done. f_equal. rewrite <-IH.
    symmetry. apply symbols_from_root.
    by eapply (two_symbols_internal root c p PSEUDO_EOF pe).
Qed.

(** The symbols of a tree of the right shape are those of its leaves. *)
Lemma paths_leaves t : well_formed t → (paths t).*1 = (leaves t).*1.
Proof.
  induction t as [|c k a IHa b IHb]; [done|].
  intros [(Hc & -> & ->)|(-> & Ha & Hb)].
  - simpl. by rewrite decide_True.
  - rewrite leaves_node by (by apply well_formed_nonnull).
    simpl. rewrite !fmap_app, <-!list_fmap_compose, <-IHa, <-IHb by done.
    f_equal; by apply list_fmap_ext; intros ? [? ?].
Qed.

(** The table of a tree whose symbols are all different binds every symbol
    to its path. *)
Lemma buildEncodingMap_table t :
  well_formed t → NoDup (paths t).*1 →
  ∃ table, buildEncodingMap t = Ok table
    ∧ ∀ c p, (c, p) ∈ paths t → table !! c = Some (code_string p).
Proof.
  intros Hwf Hnd. unfold buildEncodingMap.
  destruct (_buildEncodingMap_Ok t Hwf ∅ []) as [table Htable].
  exists table. split; [done|]. intros c p Hin.
  apply _buildEncodingMap_paths in Htable as ->.
  by rewrite (emplace_all_lookup_new [] (paths t) ∅ c p).
Qed.

Lemma bind_Ok {A B} (a : A) (f : A → result B) : (Ok a ≫= f) = f a.
Proof. done. Qed.

Lemma code_string_app p1 p2 :
  code_string (p1 ++ p2) = code_string p1 ++ code_string p2.
Proof. apply fmap_app. Qed.

Lemma code_string_concat ps :
  code_string (concat ps) = concat (code_string <$> ps).
Proof.
  induction ps as [|p ps IH]; [done|].
  simpl. by rewrite code_string_app, IH.
Qed.

(** The frequency map [compress] builds. *)
Lemma frequency_model fs filename isFile :
  let map := buildFrequencyMap fs filename isFile ∅ in
  map ≠ ∅ ∧ map !! NOT_A_CHAR = None ∧ map !! PSEUDO_EOF = Some 1
  ∧ ∀ c, c ∈ scanned fs filename isFile → is_Some (map !! char_to_int c).
Proof.
  intros map.
  destruct (buildFrequencyMap_lookup fs filename isFile ∅) as (Hc & He & Ho).
  fold map in Hc, He, Ho. split; [|split; [|split; [done|]]].
  - intros Hnil. by rewrite Hnil in He.
  - rewrite Ho; [done|done|]. intros c _. apply char_not_NOT_A_CHAR.
  - intros c Hin. rewrite (Hc c Hin). eauto.
Qed.

Lemma choose_paths (f : ascii → Z) (L : list (Z * list bool)) S :
  Forall (λ c, ∃ p, (f c, p) ∈ L) S →
  ∃ syms, syms.*1 = f <$> S ∧ Forall (λ entry, entry ∈ L) syms.
Proof.
  induction 1 as [|c S [p Hp] _ (syms & Hs & Hin)]; [by exists []|].
  exists ((f c, p) :: syms). split.
  - rewrite !fmap_cons. simpl. by rewrite Hs.
  - by constructor.
Qed.

Lemma syms_not_sentinel (L : list (Z * list bool)) S syms :
  syms.*1 = char_to_int <$> S → Forall (λ entry, entry ∈ L) syms →
  Forall (λ entry, entry ∈ L ∧ entry.1 ≠ PSEUDO_EOF) syms.
Proof.
  intros Hsyms Hin. apply Forall_forall. intros entry Hentry.
  rewrite Forall_forall in Hin. split; [by apply Hin|].
  assert (entry.1 ∈ char_to_int <$> S) as Hk.
  { rewrite <-Hsyms. apply list_elem_of_fmap. by exists entry. }
  apply list_elem_of_fmap in Hk as (c & -> & _). apply char_not_PSEUDO_EOF.
Qed.

Lemma codes_of_syms (table : hashmapE) (L : list (Z * list bool)) S : ∀ syms,
  syms.*1 = char_to_int <$> S → Forall (λ entry, entry ∈ L) syms →
  (∀ c p, (c, p) ∈ L → table !! c = Some (code_string p)) →
  codes_of table S = code_string <$> syms.*2.
Proof.
  induction S as [|c S IH]; intros [|[k p] syms] Hsyms Hin Hlook; try done.
  apply Forall_cons in Hin as [Hkp Hin]. injection Hsyms as Hk Hsyms.
  unfold codes_of in *. rewrite !fmap_cons, (IH syms) by done.
  simpl. by rewrite <-Hk, (Hlook k p).
Qed.

Section Compress.
Context `{PQ : PriorityQueue}.

(** The tree and the table of a frequency model. *)
Lemma tree_and_table (map : hashmapF) :
  map ≠ ∅ → map !! NOT_A_CHAR = None →
  ∃ root table,
    buildEncodingTree map = Ok root ∧ well_formed root
    ∧ buildEncodingMap root = Ok table
    ∧ (∀ c p, (c, p) ∈ paths root → table !! c = Some (code_string p))
    ∧ (∀ k, is_Some (map !! k) → ∃ p, (k, p) ∈ paths root).
Proof.
  intros Hne Hmarker.
  destruct (buildEncodingTree_well_formed map Hne Hmarker)
    as (root & Hroot & Hwf & Hl).
  assert ((paths root).*1 ≡ₚ (map_to_list map).*1) as Hkeys.
  { by rewrite paths_leaves, Hl. }
  destruct (buildEncodingMap_table root Hwf) as (table & Htable & Hlook).
  { rewrite Hkeys. apply NoDup_fst_map_to_list. }
  exists root, table. repeat (split; [done|]).
  intros k [v Hk]. apply elem_of_map_to_list in Hk.
  assert (k ∈ (paths root).*1) as Hin.
  { rewrite Hkeys. apply list_elem_of_fmap. by exists (k, v). }
  apply list_elem_of_fmap in Hin as ([k' p] & -> & Hin). by exists p.
Qed.

(** What [compress] computes. *)
Lemma compress_run (fs : filesystem) (filename : list ascii) :
  let isFile := bool_decide (is_Some (fs filename)) in
  let map := buildFrequencyMap fs filename isFile ∅ in
  ∃ root table syms pe,
    buildEncodingTree map = Ok root ∧ well_formed root
    ∧ buildEncodingMap root = Ok table
    ∧ table !! PSEUDO_EOF = Some (code_string pe)
    ∧ (PSEUDO_EOF, pe) ∈ paths root
    ∧ syms.*1 = char_to_int <$> stream_chars (fs filename)
    ∧ Forall (λ entry, entry ∈ paths root ∧ entry.1 ≠ PSEUDO_EOF) syms
    ∧ compress fs filename =
        Ok (code_string (concat syms.*2 ++ pe),
            {| ob_name := filename ++ lit ".huf"; ob_header := map;
               ob_bits := concat syms.*2 ++ pe |}).
Proof.
  intros isFile map.
  destruct (frequency_model fs filename isFile) as (Hne & Hmarker & Heof & Hdom).
  fold map in Hne, Hmarker, Heof, Hdom.
  destruct (tree_and_table map Hne Hmarker)
    as (root & table & Hroot & Hwf & Htable & Hlook & Hpaths).
  destruct (Hpaths PSEUDO_EOF) as [pe Hpe]; [by rewrite Heof|].
  destruct (choose_paths char_to_int (paths root) (stream_chars (fs filename)))
    as (syms & Hsyms & Hin).
  { apply Forall_forall. intros c Hc. apply Hpaths, Hdom.
    unfold scanned, isFile. destruct (fs filename) as [S0|] eqn:Hfs.
    - by rewrite bool_decide_eq_true_2.
    - by apply not_elem_of_nil in Hc. }
  exists root, table, syms, pe. repeat (split; [by auto|]).
  split.
  { by eapply syms_not_sentinel. }
  unfold compress. fold isFile. fold map.
  rewrite Hroot, bind_Ok, Htable, bind_Ok. cbv zeta.
  rewrite (encode_Ok (fs filename) table _ 0 (code_string pe)).
  2:{ apply Forall_forall. intros c Hc.
      assert (char_to_int c ∈ syms.*1) as Hc'.
      { rewrite Hsyms. apply list_elem_of_fmap. by exists c. }
      apply list_elem_of_fmap in Hc' as ([k p] & -> & Hkp).
      rewrite Forall_forall in Hin. simpl.
      rewrite (Hlook k p); [eauto|by apply Hin]. }
  2:{ by apply Hlook. }
  rewrite bind_Ok.
  assert (codes_of table (stream_chars (fs filename)) = code_string <$> syms.*2)
    as Hcodes by (by eapply codes_of_syms).
  rewrite Hcodes, <-code_string_concat, <-code_string_app, code_bits_string.
  done.
Qed.

End Compress.

(** C2, amended. On a tree of at least two symbols, when the bits run out
    before the walk reaches the leaf of the sentinel, [decode] stops and
    returns the symbols decoded so far as its ordinary result; no error is
    reported. *)
Theorem decode_truncated (root : HuffmanNode) (header : hashmapF)
    (bits : list bool) (output : list ascii) :
  well_formed root → is_internal_root root →
  reaches_sentinel root root bits = false →
  decode (bit_source header bits) root output =
  Ok (chars (symbols_from root root bits),
      output ++ chars (symbols_from root root bits)).
Proof. intros Hwf Hint _. by apply decode_walk. Qed.

(** [decode] on a tree that is a single leaf bound to a real symbol: the
    symbol is emitted, then a bit is read and followed to a child that does
    not exist. *)
Lemma decode_leaf_root header bits c n output :
  c ≠ PSEUDO_EOF → c ≠ NOT_A_CHAR →
  decode (bit_source header bits) (new_HuffmanNode c n nullptr nullptr) output =
  match bits with
  | [] => Ok ([int_to_char c], output ++ [int_to_char c])
  | _ :: _ => Fail NullDereference
  end.
Proof.
  intros Hsent Hmarker. rewrite decode_unfold.
  replace (length (ib_bits (bit_source header bits)) + 2)%nat
    with (S (S (length bits))) by (simpl; lia).
  rewrite decode_loop_unfold.
  change (ib_eof (bit_source header bits)) with false. cbv iota.
  rewrite decide_False, decide_True by done. cbv beta iota zeta.
  rewrite decode_read. destruct bits as [|bit bits]; [done|].
  replace (child bit _) with nullptr by (by destruct bit).
  by rewrite decode_loop_unfold.
Qed.

Section CompressDecompress.
Context `{PQ : PriorityQueue}.

(** C10. When [filename] does not name a file that opens, [compress]
    builds the frequency model from the characters of [filename], and the
    string it returns and the bits it writes are exactly the code of the
    sentinel in the table of that model: the characters of [filename] are
    not encoded. *)
Theorem compress_unopenable (fs : filesystem) (filename : list ascii) :
  fs filename = None →
  let map := buildFrequencyMap fs filename false ∅ in
  (∀ c, c ∈ filename →
     map !! char_to_int c = Some (occurrences c filename))
  ∧ ∃ root table eof,
      buildEncodingTree map = Ok root
      ∧ buildEncodingMap root = Ok table
      ∧ table !! PSEUDO_EOF = Some eof
      ∧ compress fs filename =
          Ok (eof, {| ob_name := filename ++ lit ".huf"; ob_header := map;
                      ob_bits := code_bits eof |}).
Proof.
  intros Hfs map. split.
  - intros c Hc. unfold map.
    destruct (buildFrequencyMap_lookup fs filename false ∅) as (Hcount & _).
    change (scanned fs filename false) with filename in Hcount.
    rewrite (Hcount c Hc). unfold get. by rewrite lookup_empty.
  - destruct (compress_run fs filename)
      as (root & table & syms & pe & Hroot & _ & Htable & Heof & _ & Hsyms & _ & Hrun).
    rewrite Hfs in Hroot, Hsyms, Hrun.
    rewrite bool_decide_eq_false_2 in Hroot, Hrun by (by intros [? ?]).
    simpl in Hsyms. apply fmap_nil_inv in Hsyms as ->.
    exists root, table, (code_string pe). repeat (split; [done|]).
    by rewrite code_bits_string.
Qed.

(** [decompress] undoes [compress]. *)
Lemma compress_then_decompress (fs : filesystem)
    (filename S out_name : list ascii) :
  fs filename = Some S →
  uncompressed_name (filename ++ lit ".huf") = Ok out_name →
  ∃ pattern huf,
    compress fs filename = Ok (pattern, huf)
    ∧ ob_name huf = filename ++ lit ".huf"
    ∧ ∀ files : bitfiles, files (ob_name huf) = Some huf →
        decompress files (ob_name huf) = Ok (S, (out_name, S)).
Proof.
  intros Hfs Hname.
  destruct (compress_run fs filename)
    as (root & table & syms & pe & Hroot & Hwf & _ & _ & Hpe & Hsyms & Hin & Hrun).
  rewrite Hfs in Hsyms. simpl in Hsyms.
  eexists _, _. split; [exact Hrun|]. split; [done|].
  intros files Hfiles. unfold decompress. rewrite Hfiles.
  cbn [ob_name open_ifbitstream ob_header ob_bits ib_header].
  rewrite Hname, bind_Ok, Hroot, bind_Ok.
  change {| ib_header := ?h; ib_bits := ?b; ib_eof := false |}
    with (bit_source h b).
  unfold stored_bits. rewrite <-(assoc (++)).
  set (padding := replicate _ false).
  destruct (well_formed_leaf_or_internal root Hwf) as [(c & k & -> & Hc)|Hint].
  - assert (paths (new_HuffmanNode c k nullptr nullptr) = [(c, [])]) as Hp.
    { simpl. by rewrite decide_True. }
    rewrite Hp in Hpe. apply list_elem_of_singleton in Hpe as [= <- _].
    destruct syms as [|entry syms].
    + symmetry in Hsyms. apply fmap_nil_inv in Hsyms as ->.
      by rewrite decode_sentinel_leaf.
    + apply Forall_cons in Hin as [[Hentry Hne] _]. rewrite Hp in Hentry.
      apply list_elem_of_singleton in Hentry. by subst entry.
  - rewrite decode_walk by done.
    rewrite (symbols_from_encoded root syms pe padding) by done.
    by rewrite Hsyms, chars_char_to_int, bind_Ok.
Qed.

(** C1. For every sequence of characters [S] held by a file,
    [decompress] applied to the file that [compress] wrote returns exactly
    [S], and writes [S] to its output file. The name of the compressed file
    must be one that [decompress] can turn into an output name. *)
Theorem compress_decompress_roundtrip (fs : filesystem)
    (filename S out_name : list ascii) :
  fs filename = Some S →
  uncompressed_name (filename ++ lit ".huf") = Ok out_name →
  ∃ pattern huf,
    compress fs filename = Ok (pattern, huf)
    ∧ ob_name huf = filename ++ lit ".huf"
    ∧ ∀ files : bitfiles, files (ob_name huf) = Some huf →
        decompress files (ob_name huf) = Ok (S, (out_name, S)).
Proof. apply compress_then_decompress. Qed.

(** X17. A file named [stem.ext] is compressed into [stem.ext.huf], which
    [decompress] turns into the file [stem_unc.ext], with the contents of
    the original. *)
Corollary roundtrip_extension (fs : filesystem) (stem ext S : list ascii) :
  "."%char ∉ stem → "."%char ∉ ext → ¬ lit "huf" `prefix_of` ext →
  let filename := stem ++ lit "." ++ ext in
  fs filename = Some S →
  ∃ pattern huf,
    compress fs filename = Ok (pattern, huf)
    ∧ ∀ files : bitfiles, files (filename ++ lit ".huf") = Some huf →
        decompress files (filename ++ lit ".huf") =
        Ok (S, (stem ++ lit "_unc" ++ lit "." ++ ext, S)).
Proof.
  intros Hstem Hext Hhuf filename Hfs.
  destruct (compress_then_decompress fs filename S
              (stem ++ lit "_unc" ++ lit "." ++ ext) Hfs)
    as (pattern & huf & Hrun & Hname & Hback).
  { unfold filename. rewrite <-!(assoc (++)).
    by apply uncompressed_name_extension. }
  exists pattern, huf. split; [done|]. rewrite <-Hname. apply Hback.
Qed.

(** C8. For a frequency model with a single symbol [c], which is not the
    internal marker, [buildEncodingTree] returns a single leaf and
    [buildEncodingMap] the table that binds [c] to the empty code. [decode]
    returns at once on the leaf of the sentinel. On the leaf of a real
    symbol it emits the symbol, then reads a bit and follows it to a child
    of the leaf: it returns the symbol when no bit is left, and dereferences
    a null pointer otherwise. *)
Theorem single_symbol_model (c n : Z) :
  c ≠ NOT_A_CHAR →
  let tree := new_HuffmanNode c n nullptr nullptr in
  buildEncodingTree {[c := n]} = Ok tree
  ∧ buildEncodingMap tree = Ok {[c := []]}
  ∧ (c = PSEUDO_EOF → ∀ input output, decode input tree output = Ok ([], output))
  ∧ (c ≠ PSEUDO_EOF → ∀ header output,
       decode (bit_source header []) tree output =
         Ok ([int_to_char c], output ++ [int_to_char c])
       ∧ ∀ bit bits,
           decode (bit_source header (bit :: bits)) tree output =
             Fail NullDereference).
Proof.
  intros Hc tree. split; [apply buildEncodingTree_singleton|].
  split; [|split].
  - unfold buildEncodingMap, tree. simpl. rewrite decide_True by done.
    unfold emplace. by rewrite lookup_empty.
  - intros -> input output. apply decode_sentinel_leaf.
  - intros Hne header output.
    unfold tree. split; [|intros bit bits]; by rewrite decode_leaf_root.
Qed.

(** A compressed file whose name has no ['.'] in front of [".huf"]:
    [decompress] fails in [substr] before it reads the file. *)
Lemma decompress_without_extension (files : bitfiles) :
  decompress files (lit "data.huf") = Fail OutOfRange.
Proof. reflexivity. Qed.

End CompressDecompress.

(** * Further properties *)

(** ** Further properties of the frequency map *)

Lemma count_char_comm map a b :
  count_char (count_char map a) b = count_char (count_char map b) a.
Proof.
  rewrite !count_char_insert.
  destruct (decide (char_to_int a = char_to_int b)) as [Heq|Hne].
  - by rewrite Heq.
  - unfold get. rewrite !lookup_insert_ne by done.
    by apply insert_insert_ne.
Qed.

Lemma foldl_count_char_perm S S' :
  S ≡ₚ S' → ∀ map, foldl count_char map S = foldl count_char map S'.
Proof.
  induction 1 as [|x S S' _ IH|x y S|S S' S'' _ IH1 _ IH2]; intros map.
  - done.
  - simpl. apply IH.
  - simpl. by rewrite count_char_comm.
  - by rewrite IH1.
Qed.

(** X1. The frequency model depends on the characters scanned and on how often
    each occurs, not on their order: two inputs that are rearrangements of
    each other give the same model. *)
Theorem buildFrequencyMap_rearranged (fs fs' : filesystem)
    (filename filename' : list ascii) (isFile isFile' : bool) (map : hashmapF) :
  scanned fs filename isFile ≡ₚ scanned fs' filename' isFile' →
  buildFrequencyMap fs filename isFile map =
  buildFrequencyMap fs' filename' isFile' map.
Proof.
  intros Hp. rewrite !buildFrequencyMap_unfold.
  by rewrite (foldl_count_char_perm _ _ Hp).
Qed.

Lemma foldl_count_char_sentinel S : ∀ (map : hashmapF) v,
  foldl count_char (<[PSEUDO_EOF := v]> map) S =
  <[PSEUDO_EOF := v]> (foldl count_char map S).
Proof.
  induction S as [|x S IH]; intros map v; [done|].
  simpl foldl. rewrite <-IH. f_equal.
  pose proof (char_not_PSEUDO_EOF x) as Hx.
  rewrite !count_char_insert. unfold get.
  rewrite lookup_insert_ne by done. by apply insert_insert_ne.
Qed.

(** X2. Scanning a second input into the map a first call left gives the
    model of the two inputs one after the other: the counts add up, and
    the sentinel is counted once. *)
Theorem buildFrequencyMap_accumulates (fs1 fs2 fs : filesystem)
    (filename1 filename2 : list ascii) (isFile1 isFile2 : bool)
    (map : hashmapF) :
  buildFrequencyMap fs2 filename2 isFile2
    (buildFrequencyMap fs1 filename1 isFile1 map) =
  buildFrequencyMap fs
    (scanned fs1 filename1 isFile1 ++ scanned fs2 filename2 isFile2) false map.
Proof.
  rewrite !buildFrequencyMap_unfold. cbn [scanned].
  rewrite foldl_count_char_sentinel, insert_insert_eq. by rewrite foldl_app.
Qed.

(** ** Further properties of the encoding tree *)

Lemma built_nodes t : built t → ∀ n, n ∈ nodes t → built n.
Proof.
  induction t as [|c k a IHa b IHb]; [done|].
  intros Hb n Hn. simpl in Hn. apply elem_of_cons in Hn as [->|Hn]; [done|].
  destruct Hb as [[-> ->]|(_ & _ & Ha & Hb)].
  - by apply not_elem_of_nil in Hn.
  - apply elem_of_app in Hn as [Hn|Hn]; auto.
Qed.

Lemma nodes_node c k a b :
  nodes (new_HuffmanNode c k a b) = new_HuffmanNode c k a b :: nodes a ++ nodes b.
Proof. done. Qed.

Lemma full_size t :
  full t →
  (length (nodes t) + 1 = 2 * length (leaves t))%nat
  ∧ (height t + 1 ≤ length (leaves t))%nat.
Proof.
  induction t as [|c k a IHa b IHb]; [done|].
  intros [[-> ->]|[Ha Hb]]; [simpl; lia|].
  pose proof (full_nonnull a Ha) as Hna.
  rewrite nodes_node, leaves_node, height_node by done.
  destruct (IHa Ha) as [? ?], (IHb Hb) as [? ?].
  rewrite length_cons, !length_app. lia.
Qed.

Section TreeShape.
Context `{PQ : PriorityQueue}.

(** X4. [buildEncodingTree] fails on the empty map only, by calling [top()] on
    an empty queue; on every other map it returns a node, never the null
    pointer. *)
Theorem buildEncodingTree_result (map : hashmapF) :
  match buildEncodingTree map with
  | Ok tree => map ≠ ∅ ∧ tree ≠ nullptr
  | Fail e => map = ∅ ∧ e = EmptyQueueTop
  end.
Proof.
  destruct (decide (map = ∅)) as [->|Hne].
  - by rewrite buildEncodingTree_empty.
  - destruct (buildEncodingTree_shape map Hne) as (t & -> & Hb & _).
    split; [done|]. by apply shaped_nonnull.
Qed.

(** X5. The tree built for a map of [n] entries has [n] leaves and [2n - 1]
    nodes, and no leaf lies deeper than [n - 1]. *)
Theorem buildEncodingTree_size (map : hashmapF) :
  map ≠ ∅ →
  ∃ tree, buildEncodingTree map = Ok tree
    ∧ length (leaves tree) = size map
    ∧ (length (nodes tree) = 2 * size map - 1)%nat
    ∧ (height tree ≤ size map - 1)%nat.
Proof.
  intros Hne. destruct (buildEncodingTree_shape map Hne) as (t & Ht & Hb & Hl).
  exists t. split; [done|].
  destruct (full_size t (shaped_full t Hb)) as [Hn Hh].
  assert (length (leaves t) = size map) as Hlen.
  { by rewrite Hl, length_map_to_list. }
  rewrite Hlen in Hn, Hh. split; [done|]. lia.
Qed.

(** X6. When the counts of the map are not negative and add up to
    [INT_MAX] at most, the count of every node of the tree built is the sum
    of the counts of the leaves below it, and the count of the root is the
    sum of all counts of the map. *)
Theorem buildEncodingTree_counts (map : hashmapF) :
  map ≠ ∅ → (∀ key count, map !! key = Some count → 0 ≤ count) →
  total_count map ≤ INT_MAX →
  ∃ tree, buildEncodingTree map = Ok tree
    ∧ count_of tree = total_count map
    ∧ ∀ n, n ∈ nodes tree → count_of n = leaf_sum n.
Proof.
  intros Hne Hpos Hbound.
  destruct (buildEncodingTree_built map Hne Hpos Hbound) as (t & Ht & Hb & Hl).
  exists t. split; [done|]. split.
  - rewrite (built_count t Hb), leaf_sum_leaves, total_count_sum.
    apply sum_perm. by rewrite Hl.
  - intros n Hn. apply built_count. by eapply built_nodes.
Qed.

End TreeShape.

(** ** The internal marker used as a symbol *)

Lemma _buildEncodingMap_failure t : ∀ E str e,
  _buildEncodingMap t E str = Fail e → e = NullDereference.
Proof.
  induction t as [|c k a IHa b IHb]; intros E str e; simpl.
  { congruence. }
  destruct (decide (c ≠ NOT_A_CHAR)); [done|].
  destruct (_buildEncodingMap a E (str ++ ["0"%char])) as [E'|e'] eqn:Ha; simpl.
  - apply IHb.
  - intros [= <-]. by eapply IHa.
Qed.

Lemma _buildEncodingMap_marker t v :
  shaped t → (NOT_A_CHAR, v) ∈ leaves t →
  ∀ E str, _buildEncodingMap t E str = Fail NullDereference.
Proof.
  induction t as [|c k a IHa b IHb]; [done|].
  intros [[-> ->]|(-> & Ha & Hb)] Hin E str.
  - simpl in Hin. apply list_elem_of_singleton in Hin as [= <- <-].
    cbn [_buildEncodingMap]. by destruct (decide (NOT_A_CHAR ≠ NOT_A_CHAR)).
  - rewrite leaves_node in Hin by (by apply shaped_nonnull).
    cbn [_buildEncodingMap].
    destruct (decide (NOT_A_CHAR ≠ NOT_A_CHAR)) as [|_]; [done|].
    apply elem_of_app in Hin as [Hin|Hin].
    + by rewrite (IHa Ha Hin).
    + destruct (_buildEncodingMap a E (str ++ ["0"%char])) as [E'|e'] eqn:Hr.
      * rewrite bind_Ok. by apply IHb.
      * apply _buildEncodingMap_failure in Hr as ->. done.
Qed.

Section Marker.
Context `{PQ : PriorityQueue}.

(** X7. A frequency map that binds the internal marker makes
    [buildEncodingTree] return a tree on which [buildEncodingMap]
    dereferences a null pointer: the leaf of the marker is taken for an
    internal node. *)
Theorem marker_as_symbol (map : hashmapF) (count : Z) :
  map !! NOT_A_CHAR = Some count →
  ∃ tree, buildEncodingTree map = Ok tree
    ∧ buildEncodingMap tree = Fail NullDereference.
Proof.
  intros Hm.
  destruct (buildEncodingTree_shape map) as (t & Ht & Hb & Hl).
  { intros ->. by rewrite lookup_empty in Hm. }
  exists t. split; [done|]. unfold buildEncodingMap.
  apply (_buildEncodingMap_marker t count Hb).
  rewrite Hl. by apply elem_of_map_to_list.
Qed.

End Marker.

(** ** Further properties of the code table *)

Lemma paths_length t : well_formed t →
  ∀ k p, (k, p) ∈ paths t → (length p ≤ height t)%nat.
Proof.
  induction t as [|c n a IHa b IHb]; [done|].
  intros [(Hc & -> & ->)|(-> & Ha & Hb)] k p Hin.
  - simpl in Hin. rewrite decide_True in Hin by done.
    apply list_elem_of_singleton in Hin as [= -> ->]. simpl. lia.
  - rewrite height_node by (by apply well_formed_nonnull).
    apply paths_cases in Hin as (bit & q & -> & Hq); [|done].
    destruct bit; simpl in Hq.
    + specialize (IHb Hb k q Hq). simpl. lia.
    + specialize (IHa Ha k q Hq). simpl. lia.
Qed.

Lemma code_string_bits p :
  Forall (λ ch, ch = "0"%char ∨ ch = "1"%char) (code_string p).
Proof.
  apply Forall_fmap, Forall_forall. intros [] _; simpl; auto.
Qed.

Lemma buildEncodingMap_lookup t table k code :
  buildEncodingMap t = Ok table → table !! k = Some code →
  ∃ p, (k, p) ∈ paths t ∧ code = code_string p.
Proof.
  intros Ht Hk. apply _buildEncodingMap_paths in Ht as ->.
  apply emplace_all_lookup_Some in Hk as [Hk|(p & Hp & ->)].
  - by rewrite lookup_empty in Hk.
  - by exists p.
Qed.

Section CodeTable.
Context `{PQ : PriorityQueue}.

(** X8. The code table of a frequency map binds exactly the keys of the map;
    every code consists of the characters ['0'] and ['1'] only and is
    shorter than the number of keys. *)
Theorem code_table_keys (map : hashmapF) :
  map ≠ ∅ → map !! NOT_A_CHAR = None →
  ∃ tree table,
    buildEncodingTree map = Ok tree ∧ buildEncodingMap tree = Ok table
    ∧ (∀ k, is_Some (table !! k) ↔ is_Some (map !! k))
    ∧ ∀ k code, table !! k = Some code →
        Forall (λ ch, ch = "0"%char ∨ ch = "1"%char) code
        ∧ (length code < size map)%nat.
Proof.
  intros Hne Hmarker.
  destruct (tree_and_table map Hne Hmarker)
    as (root & table & Hroot & Hwf & Htable & Hlook & Hpaths).
  destruct (buildEncodingTree_shape map Hne) as (t & Ht & Hb & Hl).
  rewrite Hroot in Ht. injection Ht as <-.
  exists root, table. repeat (split; [done|]). split.
  - intros k. split.
    + intros [code Hk].
      destruct (buildEncodingMap_lookup _ _ _ _ Htable Hk) as (p & Hp & _).
      assert (k ∈ (map_to_list map).*1) as Hin.
      { rewrite <-Hl, <-paths_leaves by done.
        apply list_elem_of_fmap. by exists (k, p). }
      apply list_elem_of_fmap in Hin as ([k' v] & -> & Hin).
      apply elem_of_map_to_list in Hin. by exists v.
    + intros Hk. destruct (Hpaths k Hk) as [p Hp].
      rewrite (Hlook k p Hp). eauto.
  - intros k code Hk.
    destruct (buildEncodingMap_lookup _ _ _ _ Htable Hk) as (p & Hp & ->).
    split; [apply code_string_bits|].
    unfold code_string. rewrite length_fmap.
    pose proof (paths_length root Hwf k p Hp) as Hlen.
    destruct (full_size root (shaped_full root Hb)) as [_ Hh].
    rewrite Hl, length_map_to_list in Hh. lia.
Qed.

End CodeTable.

Lemma emplace_all_lookup_None str l : ∀ (E : hashmapE) k,
  E !! k = None → k ∉ l.*1 → emplace_all str l E !! k = None.
Proof.
  intros E k HE Hk.
  destruct (emplace_all str l E !! k) as [s|] eqn:Hs; [|done].
  apply emplace_all_lookup_Some in Hs as [Hs|(p & Hp & _)]; [congruence|].
  destruct Hk. apply list_elem_of_fmap. by exists (k, p).
Qed.

(** X9. A symbol that sits at several leaves keeps the code of the leftmost
    one: [emplace] never replaces a code. *)
Theorem buildEncodingMap_first_wins (tree : HuffmanNode)
    (before after : list (Z * list bool)) (k : Z) (p : list bool) :
  well_formed tree → paths tree = before ++ (k, p) :: after → k ∉ before.*1 →
  ∃ table, buildEncodingMap tree = Ok table
    ∧ table !! k = Some (code_string p).
Proof.
  intros Hwf Hpaths Hk.
  destruct (_buildEncodingMap_Ok tree Hwf ∅ []) as [table Htable].
  exists table. split; [done|].
  apply _buildEncodingMap_paths in Htable as ->.
  rewrite Hpaths, emplace_all_app.
  change ((k, p) :: after) with ([(k, p)] ++ after). rewrite emplace_all_app.
  apply emplace_all_lookup_old. unfold emplace_all at 1. simpl.
  rewrite emplace_lookup, emplace_all_lookup_None by done.
  by rewrite decide_True.
Qed.

(** ** [encode] followed by [decode] *)

Lemma walk_sentinel root : ∀ bits cur rest,
  reaches_sentinel root cur bits = true →
  walk root cur (bits ++ rest) = walk root cur bits.
Proof.
  induction bits as [|bit bits IH]; intros cur rest; [done|].
  simpl. destruct (child bit cur) as [|c k zero one]; [done|].
  destruct (decide (c = PSEUDO_EOF)); [done|].
  destruct (decide (c ≠ NOT_A_CHAR)); intros Hr; by rewrite IH.
Qed.

Lemma walk_length root : ∀ bits cur,
  (length (walk root cur bits) ≤ length bits)%nat.
Proof.
  induction bits as [|bit bits IH]; intros cur; [done|].
  simpl. destruct (child bit cur) as [|c k zero one]; [simpl; lia|].
  destruct (decide (c = PSEUDO_EOF)); [simpl; lia|].
  destruct (decide (c ≠ NOT_A_CHAR)); simpl.
  - specialize (IH root). lia.
  - specialize (IH (new_HuffmanNode c k zero one)). lia.
Qed.

(** X11. [decode] stops at the code of the sentinel: the bits that follow
    it, padding or not, have no effect on what is returned and written. *)
Theorem decode_stops_at_sentinel (root : HuffmanNode) (header : hashmapF)
    (bits rest : list bool) (output : list ascii) :
  well_formed root → is_internal_root root →
  reaches_sentinel root root bits = true →
  decode (bit_source header (bits ++ rest)) root output =
  decode (bit_source header bits) root output.
Proof.
  intros Hwf Hint Hr. rewrite !decode_walk by done.
  rewrite !symbols_from_root by done. by rewrite walk_sentinel.
Qed.


Lemma walk_prefix root : ∀ bits cur rest,
  walk root cur bits `prefix_of` walk root cur (bits ++ rest).
Proof.
  induction bits as [|bit bits IH]; intros cur rest; [apply prefix_nil|].
  simpl. destruct (child bit cur) as [|c k zero one]; [done|].
  destruct (decide (c = PSEUDO_EOF)); [done|].
  destruct (decide (c ≠ NOT_A_CHAR)); [|apply IH].
  apply prefix_cons, IH.
Qed.

(** X12. What [decode] returns for the first bits of a file is the beginning
    of what it returns for the whole file. *)
Theorem decode_truncation_prefix (root : HuffmanNode) (header : hashmapF)
    (bits rest : list bool) (output : list ascii) :
  well_formed root → is_internal_root root →
  ∃ text more,
    decode (bit_source header bits) root output = Ok (text, output ++ text)
    ∧ decode (bit_source header (bits ++ rest)) root output =
      Ok (text ++ more, output ++ text ++ more).
Proof.
  intros Hwf Hint. rewrite !decode_walk, !symbols_from_root by done.
  destruct (walk_prefix root bits root rest) as [more ->].
  exists (chars (walk root root bits)), (chars more).
  unfold chars. by rewrite fmap_app.
Qed.

(** ** The size of the compressed file *)

Lemma weighted_app g l l' : weighted g (l ++ l') = weighted g l + weighted g l'.
Proof. unfold weighted. induction l as [|x l IH]; simpl; lia. Qed.

Lemma weighted_perm g l l' : l ≡ₚ l' → weighted g l = weighted g l'.
Proof. unfold weighted. induction 1; simpl; lia. Qed.

Lemma paths_internal k a b :
  paths (new_HuffmanNode NOT_A_CHAR k a b) =
  (prod_map id (cons false) <$> paths a) ++ (prod_map id (cons true) <$> paths b).
Proof. cbn [paths]. by destruct (decide (NOT_A_CHAR ≠ NOT_A_CHAR)). Qed.

(** The weighted path length, from the lengths of the paths. *)
Lemma wpl_paths t : well_formed t → ∀ d (g : Z → Z),
  (∀ k p, (k, p) ∈ paths t → g k = Z.of_nat d + Z.of_nat (length p)) →
  wpl_from d t = weighted g (leaves t).
Proof.
  induction t as [|c n a IHa b IHb]; [done|].
  intros [(Hc & -> & ->)|(-> & Ha & Hb)] d g Hg.
  - unfold weighted. simpl. rewrite (Hg c []).
    + simpl. lia.
    + simpl. rewrite decide_True by done. left.
  - pose proof (well_formed_nonnull a Ha) as Hna.
    rewrite wpl_from_node, leaves_node, weighted_app by done.
    rewrite (IHa Ha (S d) g), (IHb Hb (S d) g); [done| |].
    + intros k p Hp. rewrite (Hg k (true :: p)).
      * simpl length. lia.
      * rewrite paths_internal. apply elem_of_app. right. apply list_elem_of_fmap. by exists (k, p).
    + intros k p Hp. rewrite (Hg k (false :: p)).
      * simpl length. lia.
      * rewrite paths_internal. apply elem_of_app. left. apply list_elem_of_fmap. by exists (k, p).
Qed.

Lemma weighted_insert_fresh g (map : hashmapF) k v :
  map !! k = None →
  weighted g (map_to_list (<[k := v]> map)) =
  v * g k + weighted g (map_to_list map).
Proof.
  intros Hk. by rewrite (weighted_perm _ _ _ (map_to_list_insert map k v Hk)).
Qed.

Lemma weighted_insert g (map : hashmapF) k v :
  weighted g (map_to_list (<[k := v]> map)) =
  v * g k + weighted g (map_to_list map) - get map k * g k.
Proof.
  unfold get. destruct (map !! k) as [w|] eqn:Hk; simpl.
  - rewrite <-(insert_delete_eq map k v).
    rewrite weighted_insert_fresh by apply lookup_delete_eq.
    rewrite <-(insert_delete_id map k w) at 2 by done.
    rewrite weighted_insert_fresh by apply lookup_delete_eq. lia.
  - rewrite weighted_insert_fresh by done. lia.
Qed.

Lemma weighted_foldl_count_char g S : ∀ map : hashmapF,
  weighted g (map_to_list (foldl count_char map S)) =
  weighted g (map_to_list map) + foldr Z.add 0 (g <$> (char_to_int <$> S)).
Proof.
  induction S as [|x S IH]; intros map; simpl foldl.
  { simpl. lia. }
  rewrite IH, count_char_insert, weighted_insert, !fmap_cons. simpl. lia.
Qed.

Lemma length_concat_paths (g : Z → Z) (syms : list (Z * list bool)) :
  Forall (λ entry, g entry.1 = Z.of_nat (length entry.2)) syms →
  Z.of_nat (length (concat syms.*2)) = foldr Z.add 0 (g <$> syms.*1).
Proof.
  induction 1 as [|[k p] syms Hkp _ IH]; [done|].
  rewrite !fmap_cons. simpl in *. rewrite length_app. lia.
Qed.

(** The counts of the frequency model are positive. *)
Lemma frequency_model_positive fs filename isFile key count :
  buildFrequencyMap fs filename isFile ∅ !! key = Some count → 0 < count.
Proof.
  destruct (buildFrequencyMap_lookup fs filename isFile ∅) as (Hc & He & Ho).
  cbv zeta in Hc, He, Ho. intros Hkey.
  destruct (decide (key = PSEUDO_EOF)) as [->|Hne].
  { rewrite He in Hkey. injection Hkey as <-. lia. }
  destruct (decide (key ∈ char_to_int <$> scanned fs filename isFile))
    as [Hin|Hnin].
  - apply list_elem_of_fmap in Hin as (c & -> & Hin).
    rewrite (Hc c Hin) in Hkey. injection Hkey as <-.
    unfold get. rewrite lookup_empty. simpl.
    pose proof (occurrences_pos c _ Hin). lia.
  - rewrite Ho in Hkey; [done|done|].
    intros c Hin <-. apply Hnin, list_elem_of_fmap. by exists c.
Qed.

(** A forest of one tree that keeps the invariant is a tree of least
    weighted path length. *)
Lemma forest_inv_least (map : hashmapF) t :
  map ≠ ∅ → (∀ key count, map !! key = Some count → 0 ≤ count) →
  forest_inv map [t] →
  ∀ other, leaves other ≡ₚ map_to_list map →
    weighted_path_length t ≤ weighted_path_length other.
Proof.
  intros Hne Hpos (Hb & Hl & Hopt) other Hother.
  assert (other ≠ nullptr) as Hnn.
  { intros ->. simpl in Hother. apply Permutation_nil_l in Hother.
    symmetry in Hother. by apply map_to_list_empty_iff in Hother. }
  destruct (contract_spec other Hnn) as (Hfull & Hleaves & Hwpl).
  destruct (Hopt (leaf_depths 0 (contract other)) (height (contract other)))
    as (P & N & Hk & Hw & Hc).
  { by apply full_kraft. }
  { by rewrite leaf_depths_counts, Hleaves, Hother. }
  rewrite (cost_single P N (count_of t)) in Hc by done.
  rewrite cost_leaf_depths in Hc.
  unfold forest_wpl in Hc. simpl in Hc.
  unfold weighted_path_length in *.
  etrans; [|apply Hwpl].
  - lia.
  - rewrite Hother. apply Forall_fmap, Forall_forall.
    intros [c k] Hin%elem_of_map_to_list. simpl. by eapply Hpos.
Qed.

Section CompressedSize.
Context `{PQ : PriorityQueue}.

(** The bits [compress] writes for a file of fewer than [INT_MAX]
    characters, counted. *)
Lemma compress_bits (fs : filesystem) (filename S : list ascii) :
  fs filename = Some S → Z.of_nat (length S) < INT_MAX →
  let model := buildFrequencyMap fs filename true ∅ in
  ∃ tree pattern huf,
    buildEncodingTree model = Ok tree
    ∧ compress fs filename = Ok (pattern, huf)
    ∧ length pattern = length (ob_bits huf)
    ∧ Z.of_nat (length (ob_bits huf)) = weighted_path_length tree
    ∧ ∀ other, leaves other ≡ₚ map_to_list model →
        Z.of_nat (length (ob_bits huf)) ≤ weighted_path_length other.
Proof.
  intros Hfs Hlen model.
  destruct (compress_run fs filename)
    as (root & table & syms & pe & Hroot & Hwf & Htable & _ & Hpe & Hsyms
        & Hin & Hrun).
  rewrite Hfs in Hsyms, Hroot. simpl in Hsyms.
  rewrite bool_decide_eq_true_2 in Hroot by eauto. fold model in Hroot.
  destruct (frequency_model fs filename true) as (Hne & Hmarker & _).
  fold model in Hne, Hmarker.
  assert (∀ key count, model !! key = Some count → 0 ≤ count) as Hpos.
  { intros key count Hk. apply frequency_model_positive in Hk. lia. }
  destruct (buildEncodingTree_inv model Hne Hpos) as (t & Ht & Hinv).
  { unfold model. rewrite buildFrequencyMap_total.
    change (scanned fs filename true) with (stream_chars (fs filename)).
    rewrite Hfs. simpl stream_chars. lia. }
  rewrite Hroot in Ht. injection Ht as <-.
  pose proof Hinv as (_ & Hl & _). simpl in Hl. rewrite app_nil_r in Hl.
  destruct (buildEncodingMap_table root Hwf) as (table' & Htable' & Hlook).
  { rewrite paths_leaves, Hl by done. apply NoDup_fst_map_to_list. }
  rewrite Htable in Htable'. injection Htable' as <-.
  assert (∀ k p, (k, p) ∈ paths root →
          code_length table k = Z.of_nat (length p)) as Hg.
  { intros k p Hp. unfold code_length. rewrite (Hlook k p Hp). simpl.
    unfold code_string. by rewrite length_fmap. }
  assert (Z.of_nat (length (concat syms.*2 ++ pe)) = weighted_path_length root)
    as Hsize.
  { unfold weighted_path_length.
    rewrite (wpl_paths root Hwf 0%nat (code_length table))
      by (intros k p Hp; rewrite (Hg k p Hp); lia).
    rewrite (weighted_perm _ _ _ Hl). unfold model.
    rewrite buildFrequencyMap_unfold, weighted_insert, get_PSEUDO_EOF_scanned.
    rewrite weighted_foldl_count_char, map_to_list_empty.
    change (scanned fs filename true) with (stream_chars (fs filename)).
    rewrite Hfs. simpl stream_chars. rewrite <-Hsyms.
    rewrite <-(length_concat_paths (code_length table)).
    2:{ eapply Forall_impl; [exact Hin|]. intros [k p] [Hp _]. by apply Hg. }
    rewrite length_app, (Hg _ _ Hpe). unfold get. rewrite lookup_empty.
    simpl. lia. }
  eexists root, _, _. split; [done|]. split; [exact Hrun|].
  cbn [ob_bits]. split; [|split; [done|]].
  - unfold code_string. by rewrite length_fmap.
  - intros other Hother. rewrite Hsize.
    by apply (forest_inv_least model root Hne).
Qed.

(** X14. The number of bits [compress] writes for a file of fewer than
    [INT_MAX] characters is the weighted path length of the tree of its
    frequency model, which no binary tree that carries the symbols of the
    model with their counts undercuts; the string returned has one
    character per bit. *)
Theorem compress_size (fs : filesystem) (filename S : list ascii) :
  fs filename = Some S → Z.of_nat (length S) < INT_MAX →
  let model := buildFrequencyMap fs filename true ∅ in
  ∃ tree pattern huf,
    buildEncodingTree model = Ok tree
    ∧ compress fs filename = Ok (pattern, huf)
    ∧ length pattern = length (ob_bits huf)
    ∧ Z.of_nat (length (ob_bits huf)) = weighted_path_length tree
    ∧ ∀ other, leaves other ≡ₚ map_to_list model →
        Z.of_nat (length (ob_bits huf)) ≤ weighted_path_length other.
Proof. apply compress_bits. Qed.

(** X13. [compress] never fails, whether [filename] opens or not: no
    [top()] on an empty queue, no null pointer dereferenced, no
    [out_of_range] from [at()]. The file it writes is named after the input
    with [".huf"] appended and carries the frequency model as its header;
    the string returned spells the bits written. *)
Theorem compress_succeeds (fs : filesystem) (filename : list ascii) :
  ∃ pattern huf,
    compress fs filename = Ok (pattern, huf)
    ∧ ob_name huf = filename ++ lit ".huf"
    ∧ ob_header huf =
        buildFrequencyMap fs filename (bool_decide (is_Some (fs filename))) ∅
    ∧ pattern = code_string (ob_bits huf).
Proof.
  destruct (compress_run fs filename)
    as (root & table & syms & pe & _ & _ & _ & _ & _ & _ & _ & Hrun).
  eexists _, _. split; [exact Hrun|]. done.
Qed.

End CompressedSize.

(** X15. How the priority queue orders nodes of equal count has no effect on
    the size of the compressed file, for a file of fewer than [INT_MAX]
    characters: two implementations of the queue make [compress] write the
    same header and the same number of bits. *)
Theorem compress_size_any_queue (PQ1 PQ2 : PriorityQueue)
    (fs : filesystem) (filename S : list ascii) :
  fs filename = Some S → Z.of_nat (length S) < INT_MAX →
  ∃ pattern1 huf1 pattern2 huf2,
    compress (PQ := PQ1) fs filename = Ok (pattern1, huf1)
    ∧ compress (PQ := PQ2) fs filename = Ok (pattern2, huf2)
    ∧ ob_header huf1 = ob_header huf2
    ∧ length (ob_bits huf1) = length (ob_bits huf2).
Proof.
  intros Hfs Hlen.
  destruct (compress_bits (PQ := PQ1) fs filename S Hfs Hlen)
    as (t1 & p1 & h1 & Ht1 & Hc1 & _ & Hs1 & Hmin1).
  destruct (compress_bits (PQ := PQ2) fs filename S Hfs Hlen)
    as (t2 & p2 & h2 & Ht2 & Hc2 & _ & Hs2 & Hmin2).
  destruct (frequency_model fs filename true) as (Hne & _).
  destruct (buildEncodingTree_shape (PQ := PQ1) _ Hne) as (t1' & Ht1' & _ & Hl1).
  destruct (buildEncodingTree_shape (PQ := PQ2) _ Hne) as (t2' & Ht2' & _ & Hl2).
  cbv zeta in Ht1, Ht2. rewrite Ht1 in Ht1'. rewrite Ht2 in Ht2'.
  injection Ht1' as <-. injection Ht2' as <-.
  specialize (Hmin1 t2 Hl2). specialize (Hmin2 t1 Hl1).
  exists p1, h1, p2, h2. repeat (split; [done|]). split; [|lia].
  destruct (compress_run (PQ := PQ1) fs filename) as (? & ? & ? & ? & H1).
  destruct (compress_run (PQ := PQ2) fs filename) as (? & ? & ? & ? & H2).
  destruct H1 as (_ & _ & _ & _ & _ & _ & _ & H1).
  destruct H2 as (_ & _ & _ & _ & _ & _ & _ & H2).
  rewrite Hc1 in H1. rewrite Hc2 in H2.
  injection H1 as _ ->. injection H2 as _ ->. done.
Qed.

(** ** Further properties of [decompress] *)

Lemma find_absent s ch pat : ch ∉ s → find s (ch :: pat) = -1.
Proof.
  intros Hs. unfold find. rewrite <-(app_nil_r s), find_from_skip by done.
  rewrite find_from_unfold. by rewrite bool_decide_eq_false_2 by (by intros [? ?]).
Qed.

Lemma find_suffix s ch pat :
  ch ∉ s → find (s ++ ch :: pat) (ch :: pat) = Z.of_nat (length s).
Proof.
  intros Hs. unfold find. by rewrite find_from_skip, find_from_here by done.
Qed.

Lemma uncompressed_name_no_dot (stem : list ascii) :
  "."%char ∉ stem →
  uncompressed_name stem = Fail OutOfRange
  ∧ uncompressed_name (stem ++ lit ".huf") = Fail OutOfRange.
Proof.
  intros Hstem.
  assert (∀ len, substr stem (find stem (lit ".")) len = Fail OutOfRange) as Hext.
  { intros len. change (lit ".") with ["."%char].
    rewrite find_absent by done. unfold substr.
    rewrite decide_True; [done|]. left. lia. }
  split; unfold uncompressed_name; change (lit ".huf") with ("."%char :: lit "huf").
  - rewrite find_absent by done.
    rewrite decide_False by lia. rewrite bind_Ok. by rewrite Hext.
  - rewrite find_suffix by done.
    rewrite decide_True by lia.
    assert (substr (stem ++ "."%char :: lit "huf") 0 (Z.of_nat (length stem))
            = Ok stem) as ->.
    { unfold substr. rewrite decide_False by (rewrite length_app; lia).
      rewrite decide_False by lia.
      change (Z.to_nat 0) with 0%nat.
      by rewrite drop_0, Nat2Z.id, take_app_length. }
    rewrite bind_Ok. by rewrite Hext.
Qed.

Lemma shaped_two_leaves t :
  shaped t → (2 ≤ length (leaves t))%nat → ∃ k zero one,
    t = new_HuffmanNode NOT_A_CHAR k zero one.
Proof.
  destruct t as [|c k a b]; [done|].
  intros [[-> ->]|(-> & _)] Hlen; [simpl in Hlen; lia|]. eauto.
Qed.

Section Decompress.
Context `{PQ : PriorityQueue}.

(** X19. [decompress] fails in [substr], before it reads anything, on every
    file name that has no ['.'] apart from the one of a final [".huf"]. *)
Theorem decompress_name_without_dot (files : bitfiles) (stem : list ascii) :
  "."%char ∉ stem →
  decompress files stem = Fail OutOfRange
  ∧ decompress files (stem ++ lit ".huf") = Fail OutOfRange.
Proof.
  intros Hstem. destruct (uncompressed_name_no_dot stem Hstem) as [H1 H2].
  unfold decompress. by rewrite H1, H2.
Qed.

(** X18. [decompress] accepts whatever bits follow a header of at least two
    symbols that does not bind the internal marker: it never fails, the
    text returned is the text written to the output file, and it has at
    most one character per bit stored. *)
Theorem decompress_any_bits (files : bitfiles) (filename out_name : list ascii)
    (huf : ofbitstream) :
  files filename = Some huf →
  uncompressed_name filename = Ok out_name →
  (2 ≤ size (ob_header huf))%nat → ob_header huf !! NOT_A_CHAR = None →
  ∃ text, decompress files filename = Ok (text, (out_name, text))
    ∧ (length text ≤ length (stored_bits (ob_bits huf)))%nat.
Proof.
  intros Hfiles Hname Hsize Hmarker.
  assert (ob_header huf ≠ ∅) as Hne.
  { intros Hnil. rewrite Hnil, map_size_empty in Hsize. lia. }
  destruct (buildEncodingTree_well_formed _ Hne Hmarker) as (root & Hroot & Hwf & Hl).
  destruct (buildEncodingTree_shape _ Hne) as (root' & Hroot' & Hb & _).
  rewrite Hroot in Hroot'. injection Hroot' as <-.
  assert (is_internal_root root) as Hint.
  { apply shaped_two_leaves; [done|]. by rewrite Hl, length_map_to_list. }
  exists (chars (walk root root (stored_bits (ob_bits huf)))). split.
  - unfold decompress. rewrite Hfiles.
    cbn [open_ifbitstream ib_header].
    rewrite Hname, bind_Ok, Hroot, bind_Ok.
    change {| ib_header := ?h; ib_bits := ?b; ib_eof := false |}
      with (bit_source h b).
    rewrite decode_walk, symbols_from_root by done. by rewrite bind_Ok.
  - unfold chars. rewrite length_fmap. apply walk_length.
Qed.

(** X16. When [filename] does not open, [compress] encodes no character of it,
    so that [decompress] of the file written returns the empty string and
    writes an empty file. *)
Theorem string_mode_text_lost (fs : filesystem) (filename out_name : list ascii) :
  fs filename = None →
  uncompressed_name (filename ++ lit ".huf") = Ok out_name →
  ∃ pattern huf,
    compress fs filename = Ok (pattern, huf)
    ∧ ∀ files : bitfiles, files (filename ++ lit ".huf") = Some huf →
        decompress files (filename ++ lit ".huf") = Ok ([], (out_name, [])).
Proof.
  intros Hfs Hname.
  destruct (compress_run fs filename)
    as (root & table & syms & pe & Hroot & Hwf & _ & _ & Hpe & Hsyms & _ & Hrun).
  rewrite Hfs in Hsyms. simpl in Hsyms. apply fmap_nil_inv in Hsyms as ->.
  eexists _, _. split; [exact Hrun|].
  intros files Hfiles. unfold decompress. rewrite Hfiles.
  cbn [open_ifbitstream ob_header ob_bits ib_header].
  rewrite Hname, bind_Ok, Hroot, bind_Ok.
  change {| ib_header := ?h; ib_bits := ?b; ib_eof := false |}
    with (bit_source h b).
  unfold stored_bits. simpl concat. rewrite app_nil_l.
  set (padding := replicate _ false).
  destruct (well_formed_leaf_or_internal root Hwf) as [(c & k & -> & Hc)|Hint].
  - assert (paths (new_HuffmanNode c k nullptr nullptr) = [(c, [])]) as Hp.
    { simpl. by rewrite decide_True. }
    rewrite Hp in Hpe. apply list_elem_of_singleton in Hpe as [= <- _].
    by rewrite decode_sentinel_leaf.
  - rewrite decode_walk by done.
    change (pe ++ padding) with (concat ([] : list (Z * list bool)).*2 ++ pe ++ padding).
    by rewrite (symbols_from_encoded root [] pe padding).
Qed.

End Decompress.

Section MissingFile.
Context `{PQ : PriorityQueue}.

(** X20. On a file that does not open, or whose header is empty, [decompress]
    returns nothing: when the name can be turned into an output name, it
    calls [top()] on an empty queue. *)
Theorem decompress_empty_header (files : bitfiles) (filename : list ascii) :
  ib_header (open_ifbitstream (files filename)) = ∅ →
  decompress files filename =
  match uncompressed_name filename with
  | Ok _ => Fail EmptyQueueTop
  | Fail e => Fail e
  end.
Proof.
  intros Hheader. unfold decompress. rewrite Hheader.
  destruct (uncompressed_name filename) as [out_name|e]; [|done].
  by rewrite bind_Ok, buildEncodingTree_empty.
Qed.

End MissingFile.

(** ** [freeTree] *)

Lemma outcome_bind_Done {A B} (a : A) (f : A → outcome B) : (Done a ≫= f) = f a.
Proof. done. Qed.

Lemma lookup_without A (heap : store) a :
  without A heap !! a = if decide (a ∈ A) then None else heap !! a.
Proof.
  unfold without. destruct (decide (a ∈ A)) as [Hin|Hnin].
  - apply map_lookup_filter_None. right. intros node _ Hn. by apply Hn.
  - destruct (heap !! a) as [node|] eqn:Ha.
    + by apply map_lookup_filter_Some.
    + apply map_lookup_filter_None. by left.
Qed.

Lemma without_nil (heap : store) : without [] heap = heap.
Proof.
  apply map_eq. intros a. rewrite lookup_without.
  by rewrite decide_False by apply not_elem_of_nil.
Qed.

Lemma without_app A B (heap : store) :
  without B (without A heap) = without (A ++ B) heap.
Proof.
  apply map_eq. intros a. rewrite !lookup_without.
  destruct (decide (a ∈ A)), (decide (a ∈ B)), (decide (a ∈ A ++ B)) as [Hin|Hnin];
    try done; try (by destruct Hnin; apply elem_of_app; auto).
  apply elem_of_app in Hin as [?|?]; done.
Qed.

Lemma delete_without a A (heap : store) :
  delete a (without A heap) = without (a :: A) heap.
Proof.
  apply map_eq. intros b. rewrite lookup_delete, !lookup_without.
  destruct (decide (a = b)) as [->|Hne].
  - by rewrite decide_True by left.
  - destruct (decide (b ∈ A)).
    + by rewrite decide_True by (by right).
    + rewrite decide_False; [done|]. by intros [->|?]%elem_of_cons.
Qed.

Lemma tree_at_allocated heap t : ∀ root A,
  tree_at heap root t A → ∀ a, a ∈ A → is_Some (heap !! a).
Proof.
  induction t as [|c k zero IHz one IHo]; intros root A.
  { intros [_ ->] a Ha. by apply not_elem_of_nil in Ha. }
  intros (_ & pz & po & Az & Ao & Hroot & Hz & Ho & ->) a Ha.
  apply elem_of_cons in Ha as [->|Ha]; [by eauto|].
  apply elem_of_app in Ha as [Ha|Ha]; eauto.
Qed.

Lemma tree_at_length heap t : ∀ root A,
  tree_at heap root t A → length A = length (nodes t).
Proof.
  induction t as [|c k zero IHz one IHo]; intros root A.
  { by intros [_ ->]. }
  intros (_ & pz & po & Az & Ao & _ & Hz & Ho & ->).
  simpl. rewrite !length_app. by rewrite (IHz _ _ Hz), (IHo _ _ Ho).
Qed.

(** Freeing nodes outside a tree leaves the tree in place. *)
Lemma tree_at_without heap B t : ∀ root A,
  tree_at heap root t A → (∀ a, a ∈ A → a ∉ B) →
  tree_at (without B heap) root t A.
Proof.
  induction t as [|c k zero IHz one IHo]; intros root A; [done|].
  intros (Hnz & pz & po & Az & Ao & Hroot & Hz & Ho & ->) Hdisj.
  split; [done|]. exists pz, po, Az, Ao. split; [|split; [|split; [|done]]].
  - rewrite lookup_without, decide_False; [done|]. apply Hdisj. left.
  - apply IHz; [done|]. intros a Ha. apply Hdisj. right. apply elem_of_app. auto.
  - apply IHo; [done|]. intros a Ha. apply Hdisj. right. apply elem_of_app. auto.
Qed.

Lemma _freeTree_unfold fuel root heap :
  _freeTree fuel root heap =
  if decide (root = 0%N) then Done heap
  else
    match fuel with
    | O => Invalid RecursionBound
    | S fuel =>
        node ← read_node root heap;
        heap ← _freeTree fuel (sn_zero node) heap;
        node ← read_node root heap;
        heap ← _freeTree fuel (sn_one node) heap;
        heap ← write_zero root 0%N heap;
        heap ← write_one root 0%N heap;
        delete_node root heap
    end.
Proof. by destruct fuel. Qed.

Lemma read_node_Some root (heap : store) node :
  heap !! root = Some node → read_node root heap = Done node.
Proof. unfold read_node. by intros ->. Qed.

(** The last three statements of [_freeTree]. *)
Lemma clear_and_delete root (heap : store) node :
  heap !! root = Some node →
  (heap ← write_zero root 0%N heap;
   heap ← write_one root 0%N heap;
   delete_node root heap) = Done (delete root heap).
Proof.
  intros Hroot. unfold write_zero, write_one, delete_node.
  rewrite (read_node_Some _ _ _ Hroot), !outcome_bind_Done.
  rewrite (read_node_Some _ _ _ (lookup_insert_eq _ _ _)), !outcome_bind_Done.
  rewrite (read_node_Some _ _ _ (lookup_insert_eq _ _ _)), !outcome_bind_Done.
  by rewrite !delete_insert_eq.
Qed.

(** [_freeTree] on a tree whose nodes lie at distinct addresses. *)
Lemma _freeTree_tree t : ∀ fuel root heap A,
  tree_at heap root t A → NoDup A → (length A ≤ fuel)%nat →
  _freeTree fuel root heap = Done (without A heap).
Proof.
  induction t as [|c k zero IHz one IHo]; intros fuel root heap A.
  { intros [-> ->] _ _. rewrite _freeTree_unfold, decide_True by done.
    by rewrite without_nil. }
  intros (Hnz & pz & po & Az & Ao & Hroot & Hz & Ho & ->) Hnd Hfuel.
  apply NoDup_cons in Hnd as [Hfresh Hnd].
  apply NoDup_app in Hnd as (Hndz & Hdisj & Hndo).
  rewrite not_elem_of_app in Hfresh. destruct Hfresh as [Hfz Hfo].
  simpl in Hfuel. rewrite length_app in Hfuel.
  destruct fuel as [|fuel]; [lia|].
  rewrite _freeTree_unfold, decide_False by done.
  rewrite (read_node_Some _ _ _ Hroot), outcome_bind_Done. cbn [sn_zero].
  rewrite (IHz fuel pz heap Az) by (done || lia).
  rewrite outcome_bind_Done.
  assert (without Az heap !! root =
          Some {| sn_character := c; sn_count := k; sn_zero := pz; sn_one := po |})
    as Hroot'.
  { by rewrite lookup_without, decide_False. }
  rewrite (read_node_Some _ _ _ Hroot'), outcome_bind_Done. cbn [sn_one].
  rewrite (IHo fuel po (without Az heap) Ao); [|  |done|lia].
  2:{ apply tree_at_without; [done|]. intros a Ha Ha'. by apply (Hdisj a). }
  rewrite outcome_bind_Done, without_app.
  rewrite (clear_and_delete root _
             {| sn_character := c; sn_count := k; sn_zero := pz; sn_one := po |}).
  - by rewrite delete_without.
  - rewrite lookup_without, decide_False; [done|].
    by intros [?|?]%elem_of_app.
Qed.

Lemma allocated_length (heap : store) A :
  NoDup A → (∀ a, a ∈ A → is_Some (heap !! a)) → (length A ≤ size heap)%nat.
Proof.
  intros Hnd Hin. rewrite <-length_map_to_list, <-(length_fmap fst).
  apply submseteq_length, NoDup_submseteq; [done|].
  intros a [node Ha]%Hin. apply list_elem_of_fmap. exists (a, node).
  split; [done|]. by apply elem_of_map_to_list.
Qed.

Lemma size_without (heap : store) A :
  NoDup A → (∀ a, a ∈ A → is_Some (heap !! a)) →
  (size (without A heap) + length A = size heap)%nat.
Proof.
  induction A as [|a A IH]; intros Hnd Hin.
  { rewrite without_nil. simpl. lia. }
  apply NoDup_cons in Hnd as [Hfresh Hnd].
  assert (is_Some (without A heap !! a)) as Ha.
  { rewrite lookup_without, decide_False by done. apply Hin. left. }
  rewrite <-delete_without, map_size_delete_Some by done.
  pose proof (map_size_ne_0_lookup_2 _ _ Ha).
  specialize (IH Hnd (λ b Hb, Hin b (list_elem_of_further _ _ _ Hb))).
  simpl. lia.
Qed.

(** X21. [freeTree] on a tree whose nodes lie at distinct addresses deletes
    every node of the tree, once, and leaves every other node of the store
    as it was. *)
Theorem freeTree_frees_tree (heap : store) (root : N) (t : HuffmanNode)
    (A : list N) :
  tree_at heap root t A → NoDup A →
  freeTree root heap = Done (without A heap)
  ∧ (size (without A heap) + length (nodes t) = size heap)%nat.
Proof.
  intros Ht Hnd.
  pose proof (tree_at_allocated _ _ _ _ Ht) as Hin. split.
  - apply (_freeTree_tree t); [done|done|]. by apply allocated_length.
  - rewrite <-(tree_at_length _ _ _ _ Ht). by apply size_without.
Qed.

(** X22. [freeTree] is not safe on a node whose two children are the same
    subtree: the subtree is freed through the first pointer and reached
    again, freed, through the second. *)
Theorem freeTree_shared_child (heap : store) (root shared : N) (c k : Z)
    (t : HuffmanNode) (A : list N) :
  root ≠ 0%N → shared ≠ 0%N →
  heap !! root = Some {| sn_character := c; sn_count := k;
                         sn_zero := shared; sn_one := shared |} →
  tree_at heap shared t A → NoDup A → root ∉ A →
  freeTree root heap = Invalid DanglingPointer.
Proof.
  intros Hroot Hshared Hnode Ht Hnd Hfresh. unfold freeTree.
  assert (length (root :: A) ≤ size heap)%nat as Hsize.
  { apply allocated_length; [by constructor|].
    intros a [->|Ha]%elem_of_cons; [by eauto|].
    by eapply tree_at_allocated. }
  assert (∃ A', A = shared :: A') as [A' HA].
  { destruct t; [by destruct Ht|].
    destruct Ht as (_ & ? & ? & Az & Ao & _ & _ & _ & ->). eauto. }
  simpl in Hsize. destruct (size heap) as [|fuel]; [lia|].
  rewrite _freeTree_unfold, decide_False by done.
  rewrite (read_node_Some _ _ _ Hnode), outcome_bind_Done. cbn [sn_zero].
  rewrite (_freeTree_tree t fuel shared heap A) by (done || lia).
  rewrite outcome_bind_Done.
  assert (without A heap !! root =
          Some {| sn_character := c; sn_count := k;
                  sn_zero := shared; sn_one := shared |}) as Hnode'.
  { by rewrite lookup_without, decide_False. }
  rewrite (read_node_Some _ _ _ Hnode'), outcome_bind_Done. cbn [sn_one].
  destruct fuel as [|fuel]; [subst A; simpl in Hsize; lia|].
  rewrite _freeTree_unfold, decide_False by done.
  assert (read_node shared (without A heap) = Invalid DanglingPointer) as ->.
  { unfold read_node. by rewrite lookup_without, decide_True by (subst A; left). }
  done.
Qed.

(** * Examples *)

(** Facts about the inputs of the examples. *)
Lemma example_model_nonempty : example_model ≠ ∅.
Proof. apply insert_non_empty. Qed.

Lemma example_model_counts key count :
  example_model !! key = Some count → 0 ≤ count.
Proof.
  revert key count. apply (bool_decide_unpack (map_Forall (λ _ v, 0 ≤ v) example_model)).
  by vm_compute.
Qed.

Lemma example_model_total : total_count example_model ≤ INT_MAX.
Proof. by vm_compute. Qed.

Lemma example_tree_well_formed : well_formed example_tree.
Proof. right. repeat split; left; repeat split; done. Qed.

(** C2 as stated fails: eight bits that spell ['a'] eight times and never
    reach the sentinel are decoded into ["aaaaaaaa"], returned as the
    ordinary result. *)
Lemma decode_returns_partial_output :
  buildEncodingTree (PQ := sorted_queue) {[ 97 := 2; PSEUDO_EOF := 1 ]}
    = Ok example_tree
  ∧ reaches_sentinel example_tree example_tree (replicate 8 true) = false
  ∧ decode (bit_source ∅ (replicate 8 true)) example_tree []
    = Ok (lit "aaaaaaaa", lit "aaaaaaaa").
Proof. repeat split; by vm_compute. Qed.

(** The round trip of the file ["a.txt"], which holds ["aabbbcc"]. *)
Lemma compress_decompress_roundtrip_witness :
  example_fs (lit "a.txt") = Some (lit "aabbbcc")
  ∧ uncompressed_name (lit "a.txt" ++ lit ".huf") = Ok (lit "a_unc.txt")
  ∧ ∃ pattern huf,
      compress (PQ := sorted_queue) example_fs (lit "a.txt") = Ok (pattern, huf)
      ∧ ob_name huf = lit "a.txt" ++ lit ".huf"
      ∧ ∀ files : bitfiles, files (ob_name huf) = Some huf →
          decompress (PQ := sorted_queue) files (ob_name huf)
          = Ok (lit "aabbbcc", (lit "a_unc.txt", lit "aabbbcc")).
Proof.
  split; [reflexivity|]. split; [reflexivity|].
  apply (compress_decompress_roundtrip (PQ := sorted_queue) example_fs
           (lit "a.txt") (lit "aabbbcc") (lit "a_unc.txt")); reflexivity.
Defined.

(** [decode_truncated] on the same eight bits. *)
Lemma decode_truncated_witness :
  well_formed example_tree ∧ is_internal_root example_tree
  ∧ reaches_sentinel example_tree example_tree (replicate 8 true) = false
  ∧ decode (bit_source ∅ (replicate 8 true)) example_tree [] =
    Ok (chars (symbols_from example_tree example_tree (replicate 8 true)),
        [] ++ chars (symbols_from example_tree example_tree (replicate 8 true))).
Proof.
  assert (is_internal_root example_tree) as Hint by (by eexists _, _, _).
  split; [exact example_tree_well_formed|]. split; [exact Hint|].
  split; [reflexivity|].
  apply (decode_truncated example_tree ∅ (replicate 8 true) []);
    [exact example_tree_well_formed | exact Hint | reflexivity].
Defined.

(** C3 as stated fails when the counts add up beyond [INT_MAX]: every
    count of [overflow_model] fits an [int], the sums [buildEncodingTree]
    takes wrap around (the count of the root is 62), the queue orders the
    nodes by the wrapped sums, and the tree returned costs 9663676540,
    where the tree with every symbol at depth two costs 8589934716. *)
Lemma tree_not_optimal_beyond_int :
  let tree :=
    new_HuffmanNode NOT_A_CHAR 62
      (new_HuffmanNode NOT_A_CHAR (-1073741783)
         (new_HuffmanNode NOT_A_CHAR (-2147483627)
            (leaf 97 1073741834) (leaf 98 1073741835))
         (leaf 99 1073741844))
      (leaf 100 1073741845) in
  let other :=
    new_HuffmanNode NOT_A_CHAR 4294967358
      (new_HuffmanNode NOT_A_CHAR 2147483669
         (leaf 97 1073741834) (leaf 98 1073741835))
      (new_HuffmanNode NOT_A_CHAR 2147483689
         (leaf 99 1073741844) (leaf 100 1073741845)) in
  overflow_model ≠ ∅
  ∧ map_Forall (λ _ count, 0 ≤ count ≤ INT_MAX) overflow_model
  ∧ buildEncodingTree (PQ := sorted_queue) overflow_model = Ok tree
  ∧ leaves tree ≡ₚ map_to_list overflow_model
  ∧ leaves other ≡ₚ map_to_list overflow_model
  ∧ weighted_path_length tree = 9663676540
  ∧ weighted_path_length other = 8589934716
  ∧ ¬ weighted_path_length tree ≤ weighted_path_length other.
Proof.
  split; [apply insert_non_empty|].
  split; [apply (bool_decide_unpack _); by vm_compute|].
  split; [by vm_compute|].
  split; [apply (bool_decide_unpack _); by vm_compute|].
  split; [apply (bool_decide_unpack _); by vm_compute|].
  split; [by vm_compute|]. split; by vm_compute.
Qed.

(** The tree of the model of ["aabbbcc"] is optimal. *)
Lemma tree_optimal_witness :
  example_model ≠ ∅
  ∧ (∀ key count, example_model !! key = Some count → 0 ≤ count)
  ∧ total_count example_model ≤ INT_MAX
  ∧ ∃ tree, buildEncodingTree (PQ := sorted_queue) example_model = Ok tree
      ∧ leaves tree ≡ₚ map_to_list example_model
      ∧ ∀ other, leaves other ≡ₚ map_to_list example_model →
          weighted_path_length tree ≤ weighted_path_length other.
Proof.
  split; [exact example_model_nonempty|]. split; [exact example_model_counts|].
  split; [exact example_model_total|].
  apply (tree_optimal (PQ := sorted_queue) example_model);
    [exact example_model_nonempty | exact example_model_counts
    | exact example_model_total].
Defined.

(** The nodes of the tree of the model of ["aabbbcc"]. *)
Lemma tree_nodes_leaf_or_internal_witness :
  example_model ≠ ∅ ∧ example_model !! NOT_A_CHAR = None
  ∧ ∃ tree, buildEncodingTree (PQ := sorted_queue) example_model = Ok tree
      ∧ ∀ n, n ∈ nodes tree → is_leaf n ∨ is_internal n.
Proof.
  split; [exact example_model_nonempty|]. split; [reflexivity|].
  apply (tree_nodes_leaf_or_internal (PQ := sorted_queue) example_model);
    [exact example_model_nonempty | reflexivity].
Defined.

(** The table of [example_tree]: the codes ["0"] and ["1"]. *)
Lemma code_table_prefix_free_witness :
  buildEncodingMap example_tree = Ok example_table
  ∧ PSEUDO_EOF ≠ 97
  ∧ example_table !! PSEUDO_EOF = Some ["0"%char]
  ∧ example_table !! 97 = Some ["1"%char]
  ∧ ¬ ["0"%char] `prefix_of` ["1"%char].
Proof.
  split; [reflexivity|]. split; [discriminate|]. split; [reflexivity|].
  split; [reflexivity|].
  apply (code_table_prefix_free example_tree example_table eq_refl
           PSEUDO_EOF 97 ["0"%char] ["1"%char]);
    [discriminate | reflexivity | reflexivity].
Defined.

(** The model that holds ['a'] alone: the tree is a single leaf, and [decode]
    with one bit to read dereferences a null pointer. *)
Lemma single_symbol_model_witness :
  97 ≠ NOT_A_CHAR
  ∧ buildEncodingTree (PQ := sorted_queue) {[ 97 := 3 ]}
    = Ok (new_HuffmanNode 97 3 nullptr nullptr)
  ∧ decode (bit_source ∅ [false]) (new_HuffmanNode 97 3 nullptr nullptr) []
    = Fail NullDereference.
Proof.
  assert (97 ≠ NOT_A_CHAR) as Hc by discriminate.
  split; [exact Hc|].
  destruct (single_symbol_model (PQ := sorted_queue) 97 3 Hc)
    as (Htree & _ & _ & Hdecode).
  split; [exact Htree|].
  destruct (Hdecode ltac:(discriminate) ∅ []) as [_ Hnull]. apply Hnull.
Defined.

(** [compress] on the name ["ab"], which does not open. *)
Lemma compress_unopenable_witness :
  example_fs (lit "ab") = None
  ∧ ∃ root table eof,
      buildEncodingTree (PQ := sorted_queue)
        (buildFrequencyMap example_fs (lit "ab") false ∅) = Ok root
      ∧ buildEncodingMap root = Ok table
      ∧ table !! PSEUDO_EOF = Some eof
      ∧ compress (PQ := sorted_queue) example_fs (lit "ab") =
          Ok (eof, {| ob_name := lit "ab" ++ lit ".huf";
                      ob_header := buildFrequencyMap example_fs (lit "ab") false ∅;
                      ob_bits := code_bits eof |}).
Proof.
  split; [reflexivity|].
  apply (compress_unopenable (PQ := sorted_queue) example_fs (lit "ab") eq_refl).
Defined.

(** The order among elements of equal count shapes the tree, not its
    weighted path length: for the model of ["aabbbcc"], one implementation
    of the queue gives every symbol a code of two bits, the other gives
    ['b'] a code of one bit and the sentinel a code of three. *)
Lemma tie_break_example :
  ∃ t1 t2,
    buildEncodingTree (PQ := sorted_queue_with SortedQueue.Behind) example_model
      = Ok t1
    ∧ buildEncodingTree (PQ := sorted_queue_with SortedQueue.InFront) example_model
      = Ok t2
    ∧ t1 ≠ t2
    ∧ height t1 = 2%nat ∧ height t2 = 3%nat
    ∧ weighted_path_length t1 = 16 ∧ weighted_path_length t2 = 16.
Proof. eexists _, _. repeat split; try by vm_compute. Qed.

(** The empty file: the model holds the sentinel alone, the tree is a
    single leaf, no bit is written, and [decompress] returns the empty
    string. *)
Lemma empty_file_example :
  let fs : filesystem := λ name, if decide (name = lit "e.txt") then Some [] else None in
  let huf := {| ob_name := lit "e.txt.huf"; ob_header := {[PSEUDO_EOF := 1]};
                ob_bits := [] |} in
  compress (PQ := sorted_queue) fs (lit "e.txt") = Ok ([], huf)
  ∧ buildEncodingTree (PQ := sorted_queue) (ob_header huf)
    = Ok (new_HuffmanNode PSEUDO_EOF 1 nullptr nullptr)
  ∧ decompress (PQ := sorted_queue) (λ _, Some huf) (lit "e.txt.huf")
    = Ok ([], (lit "e_unc.txt", [])).
Proof. repeat split; by vm_compute. Qed.

(** A file of one character: two bits, one for the character and one for
    the sentinel. *)
Lemma one_character_example :
  let fs : filesystem := λ name, if decide (name = lit "o.txt") then Some (lit "a") else None in
  ∃ pattern huf,
    compress (PQ := sorted_queue) fs (lit "o.txt") = Ok (pattern, huf)
    ∧ length (ob_bits huf) = 2%nat
    ∧ decompress (PQ := sorted_queue) (λ _, Some huf) (lit "o.txt.huf")
      = Ok (lit "a", (lit "o_unc.txt", lit "a")).
Proof. eexists _, _. repeat split; by vm_compute. Qed.

(** A file that holds one character twice: the counts differ, and every
    implementation of the queue gives the sentinel the code ["0"] and the
    character the code ["1"]. *)
Lemma one_symbol_example :
  let fs : filesystem := λ name, if decide (name = lit "o.txt") then Some (lit "aa") else None in
  ∃ huf,
    compress (PQ := sorted_queue) fs (lit "o.txt") = Ok (lit "110", huf)
    ∧ ob_bits huf = [true; true; false]
    ∧ decompress (PQ := sorted_queue) (λ _, Some huf) (lit "o.txt.huf")
      = Ok (lit "aa", (lit "o_unc.txt", lit "aa")).
Proof. eexists. repeat split; by vm_compute. Qed.

(** ** Further examples *)


Lemma example_tree_internal : is_internal_root example_tree.
Proof. by eexists _, _, _. Qed.

(** The names ["ab"] and ["ba"], neither of which opens. *)
Lemma buildFrequencyMap_rearranged_witness :
  buildFrequencyMap example_fs (lit "ab") false ∅ =
  buildFrequencyMap example_fs (lit "ba") false ∅.
Proof.
  apply (buildFrequencyMap_rearranged example_fs example_fs (lit "ab") (lit "ba")
           false false ∅).
  exact (perm_swap "b"%char "a"%char []).
Defined.

(** The counts of the file ["a.txt"]. *)
Lemma counts_fit_int_witness :
  Z.of_nat (length (scanned example_fs (lit "a.txt") true)) < INT_MAX
  ∧ (∀ key count,
       buildFrequencyMap example_fs (lit "a.txt") true ∅ !! key = Some count →
       1 ≤ count ≤ INT_MAX)
  ∧ ∃ tree,
      buildEncodingTree (PQ := sorted_queue)
        (buildFrequencyMap example_fs (lit "a.txt") true ∅) = Ok tree
      ∧ ∀ n, n ∈ nodes tree → 0 ≤ count_of n ≤ INT_MAX.
Proof.
  split; [reflexivity|].
  apply (counts_fit_int (PQ := sorted_queue) example_fs (lit "a.txt") true).
  reflexivity.
Defined.

(** The tree of the model of ["aabbbcc"]: four leaves, seven nodes. *)
Lemma buildEncodingTree_size_witness :
  example_model ≠ ∅
  ∧ ∃ tree, buildEncodingTree (PQ := sorted_queue) example_model = Ok tree
      ∧ length (leaves tree) = size example_model
      ∧ (length (nodes tree) = 2 * size example_model - 1)%nat
      ∧ (height tree ≤ size example_model - 1)%nat.
Proof.
  split; [exact example_model_nonempty|].
  apply (buildEncodingTree_size (PQ := sorted_queue) example_model).
  exact example_model_nonempty.
Defined.

Lemma buildEncodingTree_counts_witness :
  example_model ≠ ∅
  ∧ (∀ key count, example_model !! key = Some count → 0 ≤ count)
  ∧ total_count example_model ≤ INT_MAX
  ∧ ∃ tree, buildEncodingTree (PQ := sorted_queue) example_model = Ok tree
      ∧ count_of tree = total_count example_model
      ∧ ∀ n, n ∈ nodes tree → count_of n = leaf_sum n.
Proof.
  split; [exact example_model_nonempty|]. split; [exact example_model_counts|].
  split; [exact example_model_total|].
  apply (buildEncodingTree_counts (PQ := sorted_queue) example_model);
    [exact example_model_nonempty | exact example_model_counts
    | exact example_model_total].
Defined.

(** A map that binds the internal marker and ['a']. *)
Lemma marker_as_symbol_witness :
  ∃ tree,
    buildEncodingTree (PQ := sorted_queue) {[ NOT_A_CHAR := 1; 97 := 2 ]} = Ok tree
    ∧ buildEncodingMap tree = Fail NullDereference.
Proof.
  apply (marker_as_symbol (PQ := sorted_queue) {[ NOT_A_CHAR := 1; 97 := 2 ]} 1).
  reflexivity.
Defined.

Lemma code_table_keys_witness :
  example_model ≠ ∅ ∧ example_model !! NOT_A_CHAR = None
  ∧ ∃ tree table,
      buildEncodingTree (PQ := sorted_queue) example_model = Ok tree
      ∧ buildEncodingMap tree = Ok table
      ∧ (∀ k, is_Some (table !! k) ↔ is_Some (example_model !! k))
      ∧ ∀ k code, table !! k = Some code →
          Forall (λ ch, ch = "0"%char ∨ ch = "1"%char) code
          ∧ (length code < size example_model)%nat.
Proof.
  split; [exact example_model_nonempty|]. split; [reflexivity|].
  apply (code_table_keys (PQ := sorted_queue) example_model);
    [exact example_model_nonempty | reflexivity].
Defined.

(** On [example_tree], the bits of ["a"] and the sentinel, followed by
    two more. *)
Lemma decode_stops_at_sentinel_witness :
  reaches_sentinel example_tree example_tree [true; false] = true
  ∧ decode (bit_source ∅ ([true; false] ++ [true; true])) example_tree [] =
    decode (bit_source ∅ [true; false]) example_tree [].
Proof.
  split; [reflexivity|].
  apply (decode_stops_at_sentinel example_tree ∅ [true; false] [true; true] []);
    [exact example_tree_well_formed | exact example_tree_internal | reflexivity].
Defined.


(** The size of the compressed file of ["a.txt"]. *)
Lemma compress_size_witness :
  example_fs (lit "a.txt") = Some (lit "aabbbcc")
  ∧ Z.of_nat (length (lit "aabbbcc")) < INT_MAX
  ∧ ∃ tree pattern huf,
      buildEncodingTree (PQ := sorted_queue)
        (buildFrequencyMap example_fs (lit "a.txt") true ∅) = Ok tree
      ∧ compress (PQ := sorted_queue) example_fs (lit "a.txt") = Ok (pattern, huf)
      ∧ length pattern = length (ob_bits huf)
      ∧ Z.of_nat (length (ob_bits huf)) = weighted_path_length tree
      ∧ ∀ other,
          leaves other ≡ₚ
            map_to_list (buildFrequencyMap example_fs (lit "a.txt") true ∅) →
          Z.of_nat (length (ob_bits huf)) ≤ weighted_path_length other.
Proof.
  split; [reflexivity|]. split; [reflexivity|].
  apply (compress_size (PQ := sorted_queue) example_fs (lit "a.txt")
           (lit "aabbbcc")); reflexivity.
Defined.

(** The two implementations of the queue on the file ["a.txt"]. *)
Lemma compress_size_any_queue_witness :
  example_fs (lit "a.txt") = Some (lit "aabbbcc")
  ∧ Z.of_nat (length (lit "aabbbcc")) < INT_MAX
  ∧ ∃ pattern1 huf1 pattern2 huf2,
    compress (PQ := sorted_queue_with SortedQueue.Behind) example_fs (lit "a.txt")
      = Ok (pattern1, huf1)
    ∧ compress (PQ := sorted_queue_with SortedQueue.InFront) example_fs (lit "a.txt")
      = Ok (pattern2, huf2)
    ∧ ob_header huf1 = ob_header huf2
    ∧ length (ob_bits huf1) = length (ob_bits huf2).
Proof.
  split; [reflexivity|]. split; [reflexivity|].
  apply (compress_size_any_queue (sorted_queue_with SortedQueue.Behind)
           (sorted_queue_with SortedQueue.InFront) example_fs (lit "a.txt")
           (lit "aabbbcc")); reflexivity.
Defined.

(** [decompress] on [example_huf]. *)
Lemma decompress_any_bits_witness :
  ∃ text,
    decompress (PQ := sorted_queue) (λ _, Some example_huf) (lit "a.txt.huf")
      = Ok (text, (lit "a_unc.txt", text))
    ∧ (length text ≤ length (stored_bits (ob_bits example_huf)))%nat.
Proof.
  apply (decompress_any_bits (PQ := sorted_queue) (λ _, Some example_huf)
           (lit "a.txt.huf") (lit "a_unc.txt") example_huf).
  - reflexivity.
  - reflexivity.
  - vm_compute. lia.
  - reflexivity.
Defined.

(** The names ["data"] and ["data.huf"]. *)
Lemma decompress_name_without_dot_witness :
  decompress (PQ := sorted_queue) (λ _, Some example_huf) (lit "data")
    = Fail OutOfRange
  ∧ decompress (PQ := sorted_queue) (λ _, Some example_huf)
      (lit "data" ++ lit ".huf") = Fail OutOfRange.
Proof.
  apply (decompress_name_without_dot (PQ := sorted_queue)
           (λ _, Some example_huf) (lit "data")).
  apply (bool_decide_unpack _). by vm_compute.
Defined.

(** The name ["b.c"], which does not open. *)
Lemma string_mode_text_lost_witness :
  example_fs (lit "b.c") = None
  ∧ ∃ pattern huf,
      compress (PQ := sorted_queue) example_fs (lit "b.c") = Ok (pattern, huf)
      ∧ ∀ files : bitfiles, files (lit "b.c" ++ lit ".huf") = Some huf →
          decompress (PQ := sorted_queue) files (lit "b.c" ++ lit ".huf")
          = Ok ([], (lit "b_unc.c", [])).
Proof.
  split; [reflexivity|].
  apply (string_mode_text_lost (PQ := sorted_queue) example_fs (lit "b.c")
           (lit "b_unc.c")); reflexivity.
Defined.

(** The file ["a.txt"] is restored as ["a_unc.txt"]. *)
Lemma roundtrip_extension_witness :
  ∃ pattern huf,
    compress (PQ := sorted_queue) example_fs (lit "a" ++ lit "." ++ lit "txt")
      = Ok (pattern, huf)
    ∧ ∀ files : bitfiles,
        files ((lit "a" ++ lit "." ++ lit "txt") ++ lit ".huf") = Some huf →
        decompress (PQ := sorted_queue) files
          ((lit "a" ++ lit "." ++ lit "txt") ++ lit ".huf") =
        Ok (lit "aabbbcc", (lit "a" ++ lit "_unc" ++ lit "." ++ lit "txt",
                            lit "aabbbcc")).
Proof.
  apply (roundtrip_extension (PQ := sorted_queue) example_fs (lit "a") (lit "txt")
           (lit "aabbbcc")).
  - apply (bool_decide_unpack _). by vm_compute.
  - apply (bool_decide_unpack _). by vm_compute.
  - apply (bool_decide_unpack _). by vm_compute.
  - reflexivity.
Defined.

Lemma decompress_empty_header_witness :
  decompress (PQ := sorted_queue) (λ _, None) (lit "a.txt.huf")
  = Fail EmptyQueueTop.
Proof.
  apply (decompress_empty_header (PQ := sorted_queue) (λ _, None)
           (lit "a.txt.huf")).
  reflexivity.
Defined.

(** A tree with ['a'] at both leaves. *)
Lemma buildEncodingMap_first_wins_witness :
  ∃ table,
    buildEncodingMap
      (new_HuffmanNode NOT_A_CHAR 2 (leaf 97 1) (leaf 97 1)) = Ok table
    ∧ table !! 97 = Some (code_string [false]).
Proof.
  apply (buildEncodingMap_first_wins
           (new_HuffmanNode NOT_A_CHAR 2 (leaf 97 1) (leaf 97 1))
           [] [(97, [true])] 97 [false]).
  - right. repeat split; left; repeat split; done.
  - reflexivity.
  - apply not_elem_of_nil.
Defined.

(** Three bits on [example_tree], cut after the first. *)
Lemma decode_truncation_prefix_witness :
  ∃ text more,
    decode (bit_source ∅ [true]) example_tree [] = Ok (text, [] ++ text)
    ∧ decode (bit_source ∅ ([true] ++ [true; false])) example_tree [] =
      Ok (text ++ more, [] ++ text ++ more).
Proof.
  apply (decode_truncation_prefix example_tree ∅ [true] [true; false] []);
    [exact example_tree_well_formed | exact example_tree_internal].
Defined.

Lemma example_store_tree : tree_at example_store 1%N example_tree [1; 2; 3]%N.
Proof.
  split; [done|]. exists 2%N, 3%N, [2%N], [3%N].
  split; [reflexivity|]. split; [|split; [|done]].
  - split; [done|]. by exists 0%N, 0%N, [], [].
  - split; [done|]. by exists 0%N, 0%N, [], [].
Qed.

Lemma freeTree_frees_tree_witness :
  tree_at example_store 1%N example_tree [1; 2; 3]%N
  ∧ NoDup [1; 2; 3]%N
  ∧ freeTree 1%N example_store = Done (without [1; 2; 3]%N example_store)
  ∧ (size (without [1; 2; 3]%N example_store) + length (nodes example_tree)
     = size example_store)%nat.
Proof.
  assert (NoDup [1; 2; 3]%N) as Hnd.
  { apply (bool_decide_unpack _). by vm_compute. }
  split; [exact example_store_tree|]. split; [exact Hnd|].
  apply (freeTree_frees_tree example_store 1%N example_tree [1; 2; 3]%N);
    [exact example_store_tree | exact Hnd].
Defined.

Lemma freeTree_shared_child_witness :
  freeTree 1%N shared_store = Invalid DanglingPointer.
Proof.
  apply (freeTree_shared_child shared_store 1%N 2%N NOT_A_CHAR 2
           (new_HuffmanNode PSEUDO_EOF 1 nullptr nullptr) [2%N]).
  - done.
  - done.
  - reflexivity.
  - split; [done|]. by exists 0%N, 0%N, [], [].
  - apply (bool_decide_unpack _). by vm_compute.
  - apply (bool_decide_unpack _). by vm_compute.
Defined.

Lemma freeTree_example :
  freeTree 1%N example_store
  = Done {[ 4%N := {| sn_character := 98; sn_count := 5;
                      sn_zero := 0%N; sn_one := 0%N |} ]}.
Proof. by vm_compute. Qed.
